(** * NewtonFractal: the colour mapping of [src/main.cpp] and the Newton kernel

    The program renders the Newton fractal of [z^n - 1].  [main.cpp] holds
    the HSV to RGB conversion [hsv_to_rgb], the computation of the roots of
    unity and the serial post-processing loop that colours every pixel; the
    per-pixel Newton iteration lives in the ISPC kernel [fractal.ispc].

    The development has two parts: the definitions (single-precision
    arithmetic, [hsv_to_rgb], the post-processing loop, the Newton kernel),
    and then the lemmas and theorems about them. *)

From Stdlib Require Import Reals Lra Machin.
From Stdlib Require Import ZArith Lia Bool List.
From Stdlib Require Import Floats.SpecFloat.
Import ListNotations.
Local Open Scope Z_scope.

(** ** Single-precision arithmetic

    A C++ [float] is an IEEE 754 binary32 number.  Every finite binary32
    value is an integer multiple of [2^-149], so a finite value is kept as
    that integer: [Fin k] stands for [k * 2^-149].  An operation computes
    the exact rational result [n / d] and rounds it to the nearest value
    with a 24-bit significand, ties to even, as IEEE 754 defines it; results
    of magnitude [2^128] and more are infinite.

    The two zeros are identified: the program compares floats with zero and
    converts them to integers, which treat [-0] as [+0], and the only
    divisors it uses are converted [int]s, which are never [-0]. *)
Module F32.

Definition prec : Z := 24.

(** [1.0f] as a multiple of [2^-149]. *)
Definition one : Z := 2 ^ 149.

(** [2^128], the first magnitude that no longer is finite. *)
Definition huge : Z := 2 ^ 277.

Inductive float : Type :=
| Fin (k : Z)
| Inf (neg : bool)
| NaN.

(** Exponent of the unit in the last place of a magnitude whose integer
    part (in multiples of [2^-149]) is [k]: values below [2^24] units are
    spaced by one unit (the subnormal and the first normal binade). *)
Definition ulp_exp (k : Z) : Z := Z.max 0 (Z.log2 k + 1 - prec).

(** Nearest integer to [n / d], ties to even ([0 < d]). *)
Definition rne (n d : Z) : Z :=
  let q := n / d in
  match 2 * (n mod d) ?= d with
  | Lt => q
  | Gt => q + 1
  | Eq => if Z.even q then q else q + 1
  end.

(** Rounding of a non-negative rational [n / d] to 24 significant bits. *)
Definition round_pos (n d : Z) : Z :=
  let u := 2 ^ ulp_exp (n / d) in u * rne n (u * d).

Definition round_z (n d : Z) : Z :=
  if n <? 0 then - round_pos (- n) d else round_pos n d.

Definition round (n d : Z) : float :=
  let m := round_z n d in
  if huge <=? Z.abs m then Inf (m <? 0) else Fin m.

(** The values a [float] variable can hold. *)
Definition representable (k : Z) : bool :=
  (Z.abs k mod 2 ^ ulp_exp (Z.abs k) =? 0) && (Z.abs k <? huge).

Definition is_float (x : float) : bool :=
  match x with
  | Fin k => representable k
  | _ => true
  end.

Definition fneg (x : float) : float :=
  match x with
  | Fin k => Fin (- k)
  | Inf s => Inf (negb s)
  | NaN => NaN
  end.

Definition fadd (x y : float) : float :=
  match x, y with
  | NaN, _ | _, NaN => NaN
  | Inf a, Inf b => if Bool.eqb a b then Inf a else NaN
  | Inf a, Fin _ => Inf a
  | Fin _, Inf b => Inf b
  | Fin a, Fin b => round (a + b) 1
  end.

Definition fsub (x y : float) : float := fadd x (fneg y).

Definition fmul (x y : float) : float :=
  match x, y with
  | NaN, _ | _, NaN => NaN
  | Inf a, Inf b => Inf (xorb a b)
  | Inf a, Fin k | Fin k, Inf a =>
      if k =? 0 then NaN else Inf (xorb a (k <? 0))
  | Fin a, Fin b => round (a * b) one
  end.

Definition fdiv (x y : float) : float :=
  match x, y with
  | NaN, _ | _, NaN => NaN
  | Inf _, Inf _ => NaN
  | Inf a, Fin k => Inf (xorb a (k <? 0))
  | Fin _, Inf _ => Fin 0
  | Fin a, Fin b =>
      if b =? 0 then (if a =? 0 then NaN else Inf (a <? 0))
      else round (Z.sgn b * a * one) (Z.abs b)
  end.

(** Comparisons: a NaN is unordered. *)
Definition fcompare (x y : float) : option comparison :=
  match x, y with
  | NaN, _ | _, NaN => None
  | Inf a, Inf b =>
      Some (if Bool.eqb a b then Eq else if a then Lt else Gt)
  | Inf a, Fin _ => Some (if a then Lt else Gt)
  | Fin _, Inf b => Some (if b then Gt else Lt)
  | Fin a, Fin b => Some (a ?= b)
  end.

Definition feqb (x y : float) : bool :=
  match fcompare x y with Some Eq => true | _ => false end.

Definition fltb (x y : float) : bool :=
  match fcompare x y with Some Lt => true | _ => false end.

Definition fleb (x y : float) : bool :=
  match fcompare x y with Some (Lt | Eq) => true | _ => false end.

(** [(float)z] for an integer [z]. *)
Definition of_int (z : Z) : float := round (z * one) 1.

(** The literal with the decimal value [n / d], for instance [0.9f]. *)
Definition literal (n d : Z) : float := round (n * one) d.

Definition int_min : Z := - 2 ^ 31.
Definition int_max : Z := 2 ^ 31 - 1.

(** The integer part, towards zero. *)
Definition trunc (k : Z) : Z := Z.quot k one.

(** [(int)x]: the value is truncated towards zero; the conversion is
    undefined ([None]) when the truncated value is no [int]. *)
Definition to_int (x : float) : option Z :=
  match x with
  | Fin k =>
      let t := trunc k in
      if (int_min <=? t) && (t <=? int_max) then Some t else None
  | _ => None
  end.

(** [(unsigned char)x], undefined outside [0 .. 255] after truncation. *)
Definition to_uchar (x : float) : option Z :=
  match x with
  | Fin k =>
      let t := trunc k in
      if (0 <=? t) && (t <=? 255) then Some t else None
  | _ => None
  end.

End F32.

Import F32.

(** ** Double-precision arithmetic

    [main] computes the angles of the roots in [double], IEEE 754 binary64:
    the same arithmetic with a 53-bit significand, finite values being the
    integer multiples of [2^-1074] and infinite from [2^1024] on. *)
Module F64.

Definition prec : Z := 53.

(** [1.0] as a multiple of [2^-1074]. *)
Definition one : Z := 2 ^ 1074.

Definition huge : Z := 2 ^ 2098.

Inductive double : Type :=
| Fin (k : Z)
| Inf (neg : bool)
| NaN.

Definition ulp_exp (k : Z) : Z := Z.max 0 (Z.log2 k + 1 - prec).

Definition round_pos (n d : Z) : Z :=
  let u := 2 ^ ulp_exp (n / d) in u * F32.rne n (u * d).

Definition round_z (n d : Z) : Z :=
  if n <? 0 then - round_pos (- n) d else round_pos n d.

Definition round (n d : Z) : double :=
  let m := round_z n d in
  if huge <=? Z.abs m then Inf (m <? 0) else Fin m.

Definition fmul (x y : double) : double :=
  match x, y with
  | NaN, _ | _, NaN => NaN
  | Inf a, Inf b => Inf (xorb a b)
  | Inf a, Fin k | Fin k, Inf a =>
      if k =? 0 then NaN else Inf (xorb a (k <? 0))
  | Fin a, Fin b => round (a * b) one
  end.

Definition fdiv (x y : double) : double :=
  match x, y with
  | NaN, _ | _, NaN => NaN
  | Inf _, Inf _ => NaN
  | Inf a, Fin k => Inf (xorb a (k <? 0))
  | Fin _, Inf _ => Fin 0
  | Fin a, Fin b =>
      if b =? 0 then (if a =? 0 then NaN else Inf (a <? 0))
      else round (Z.sgn b * a * one) (Z.abs b)
  end.

(** [(double)z] for an integer [z]. *)
Definition of_int (z : Z) : double := round (z * one) 1.

(** The literal with the decimal value [n / d]. *)
Definition literal (n d : Z) : double := round (n * one) d.

(** [(float)x]: a multiple [k] of [2^-1074] is [k / 2^925] multiples of
    [2^-149]. *)
Definition to_float (x : double) : F32.float :=
  match x with
  | Fin k => F32.round k (2 ^ 925)
  | Inf s => F32.Inf s
  | NaN => F32.NaN
  end.

End F64.

(** ** Comparison with the Standard Library's [SpecFloat]

    [SpecFloat] specifies IEEE 754 arithmetic on sign, mantissa and
    exponent, with the rounding spelled out bit by bit.  The conversions
    below relate the two representations, so that the operations of [F32]
    can be run side by side with [SFadd], [SFsub], [SFmul] and [SFdiv] at
    precision 24 and [emax = 128]. *)
Definition to_spec (x : float) : spec_float :=
  match x with
  | NaN => S754_nan
  | Inf s => S754_infinity s
  | Fin 0 => S754_zero false
  | Fin k =>
      let e := ulp_exp (Z.abs k) in
      S754_finite (k <? 0) (Z.to_pos (Z.abs k / 2 ^ e)) (e - 149)
  end.

Definition of_spec (x : spec_float) : float :=
  match x with
  | S754_nan => NaN
  | S754_infinity s => Inf s
  | S754_zero _ => Fin 0
  | S754_finite s m e => Fin ((if s then -1 else 1) * Z.pos m * 2 ^ (e + 149))
  end.

Definition float_eqb (x y : float) : bool :=
  match x, y with
  | Fin a, Fin b => a =? b
  | Inf s, Inf t => Bool.eqb s t
  | NaN, NaN => true
  | _, _ => false
  end.

(** [f] and the [SpecFloat] operation [g] give the same result on [x] and
    [y]. *)
Definition agrees (f : float -> float -> float)
    (g : spec_float -> spec_float -> spec_float) (x y : float) : bool :=
  float_eqb (f x y) (of_spec (g (to_spec x) (to_spec y))).

(** Sample operands: the constants of the program, hues and values, a tie
    (2^24 + 1), the largest [int], subnormal numbers, and numbers near the
    overflow threshold. *)
Definition samples : list float :=
  [ literal 0 1; literal 1 1; literal 6 1; literal 9 10; of_int 255;
    literal (-5) 1; literal 5 1; literal 1 3; literal 3 5; literal 1 2;
    literal 4 5; literal 13981013 16777216; literal 16777215 16777216;
    of_int 16777217; of_int 2147483647; of_int 100; of_int 20; of_int (-7);
    literal 1 (10 ^ 40); literal 3 (10 ^ 45); Fin 1; Fin (-3);
    literal (10 ^ 38) 1; literal (- 3 * 10 ^ 38) 1; literal 1 1000000 ].

(** The same for [F64], at precision 53 and [emax = 1024]. *)
Definition to_spec64 (x : F64.double) : spec_float :=
  match x with
  | F64.NaN => S754_nan
  | F64.Inf s => S754_infinity s
  | F64.Fin 0 => S754_zero false
  | F64.Fin k =>
      let e := F64.ulp_exp (Z.abs k) in
      S754_finite (k <? 0) (Z.to_pos (Z.abs k / 2 ^ e)) (e - 1074)
  end.

Definition of_spec64 (x : spec_float) : F64.double :=
  match x with
  | S754_nan => F64.NaN
  | S754_infinity s => F64.Inf s
  | S754_zero _ => F64.Fin 0
  | S754_finite s m e =>
      F64.Fin ((if s then -1 else 1) * Z.pos m * 2 ^ (e + 1074))
  end.

Definition double_eqb (x y : F64.double) : bool :=
  match x, y with
  | F64.Fin a, F64.Fin b => a =? b
  | F64.Inf s, F64.Inf t => Bool.eqb s t
  | F64.NaN, F64.NaN => true
  | _, _ => false
  end.

Definition agrees64 (f : F64.double -> F64.double -> F64.double)
    (g : spec_float -> spec_float -> spec_float) (x y : F64.double) : bool :=
  double_eqb (f x y) (of_spec64 (g (to_spec64 x) (to_spec64 y))).

(** [(float)x] against the rounding of the mantissa and exponent of [x] to
    precision 24. *)
Definition to_float_agrees (x : F64.double) : bool :=
  match to_spec64 x with
  | S754_finite s m e =>
      float_eqb (F64.to_float x)
        (of_spec (binary_normalize 24 128 (if s then Z.neg m else Z.pos m)
                    e false))
  | _ => true
  end.

Definition samples64 : list F64.double :=
  [ F64.literal 2 1; F64.literal 314159265358979323846 (10 ^ 20);
    F64.of_int 0; F64.of_int 3; F64.of_int 2147483647; F64.literal 1 3;
    F64.literal (-22) 7; F64.literal 12246467991473532 (10 ^ 32);
    F64.literal (-1) 1 ].

Notation "x <- e ;; k" :=
  (match e with Some x => k | None => None end)
  (at level 61, e at next level, right associativity).

(** ** [hsv_to_rgb] ([src/main.cpp]) *)

Record RGB : Type := mkRGB { red : Z; green : Z; blue : Z }.

(** A brace initialiser [{(unsigned char)a, (unsigned char)b,
    (unsigned char)c}]. *)
Definition rgb_of (a b c : float) : option RGB :=
  x <- to_uchar a ;; y <- to_uchar b ;; z <- to_uchar c ;;
  Some (mkRGB x y z).

Definition hsv_to_rgb (h s v : float) : option RGB :=
  if feqb s (literal 0 1) then
    rgb_of (fmul v (of_int 255)) (fmul v (of_int 255)) (fmul v (of_int 255))
  else
    i <- to_int (fmul h (literal 6 1)) ;;
    let f := fsub (fmul h (literal 6 1)) (of_int i) in
    let p := fmul v (fsub (literal 1 1) s) in
    let q := fmul v (fsub (literal 1 1) (fmul s f)) in
    let t := fmul v (fsub (literal 1 1) (fmul s (fsub (literal 1 1) f))) in
    let i := Z.rem i 6 in
    let v := fmul v (of_int 255) in
    let p := fmul p (of_int 255) in
    let q := fmul q (of_int 255) in
    let t := fmul t (of_int 255) in
    match i with
    | 0 => rgb_of v t p
    | 1 => rgb_of q v p
    | 2 => rgb_of p v t
    | 3 => rgb_of p q v
    | 4 => rgb_of t p v
    | _ => rgb_of v p q
    end.

(** ** The post-processing loop of [main] ([src/main.cpp], step 5)

    [pow] is the C library's power function as the loop calls it, on
    [float] arguments and with its result stored in a [float]. *)
Section Colorizer.

Variable pow : float -> float -> float.
Variables (n max_iterations : Z) (gamma : float).

(** [value] of the loop body. *)
Definition pixel_value (iters : Z) : float :=
  let value :=
    fsub (literal 1 1) (fdiv (of_int iters) (of_int max_iterations)) in
  pow value gamma.

(** The body of the loop for one pixel. *)
Definition colorize (root_index iters : Z) : option RGB :=
  if root_index =? -1 then Some (mkRGB 0 0 0)
  else
    let hue := fdiv (of_int root_index) (of_int n) in
    let saturation := literal 9 10 in
    hsv_to_rgb hue saturation (pixel_value iters).

(** The loop over the two output arrays of the kernel. *)
Definition post_process (output_root output_iters : list Z)
  : list (option RGB) :=
  map (fun ri => colorize (fst ri) (snd ri))
      (combine output_root output_iters).

End Colorizer.


(** ** Ranges

    [between lo hi x]: [x] is finite and lies in [[lo, hi]] (both in
    multiples of [2^-149]). *)
Definition between (lo hi : Z) (x : float) : Prop :=
  exists k, x = Fin k /\ lo <= k <= hi.

(** ** The conversion as the specification describes it

    The fixed table that assigns [v], [p], [q] and [t] to the three
    channels in each of the six sectors. *)
Definition sector_channels (i v p q t : Z) : RGB :=
  match i with
  | 0 => mkRGB v t p
  | 1 => mkRGB q v p
  | 2 => mkRGB p v t
  | 3 => mkRGB p q v
  | 4 => mkRGB t p v
  | 5 => mkRGB v p q
  | _ => mkRGB 0 0 0
  end.

(** [channel x c]: [c] is [x] scaled to [[0, 255]] and truncated. *)
Definition channel (x : float) (c : Z) : Prop :=
  exists k, fmul x (of_int 255) = Fin k /\ c = trunc k /\ 0 <= c <= 255.

(** The six-sector conversion: [i] is the integer part of [h * 6], [f] its
    fractional part, and the channels follow the table. *)
Definition hsv_sectors (h s v : float) : Prop :=
  exists m i cv cp cq ct,
    fmul h (literal 6 1) = Fin m /\ i = m / one /\ 0 <= i <= 5 /\
    0 <= m - i * one < one /\
    fsub (fmul h (literal 6 1)) (of_int i) = Fin (m - i * one) /\
    let f := Fin (m - i * one) in
    let p := fmul v (fsub (literal 1 1) s) in
    let q := fmul v (fsub (literal 1 1) (fmul s f)) in
    let t := fmul v (fsub (literal 1 1) (fmul s (fsub (literal 1 1) f))) in
    channel v cv /\ channel p cp /\ channel q cq /\ channel t ct /\
    hsv_to_rgb h s v = Some (sector_channels i cv cp cq ct).

(** The value (brightness) of an RGB colour in the HSV model: its largest
    channel. *)
Definition value_channel (c : RGB) : Z :=
  Z.max (red c) (Z.max (green c) (blue c)).

(** A power function to run the loop with: the exact power, rounded once,
    for an exponent whose value is a non-negative integer, and [0] for the
    base [0] with a positive exponent.  Other arguments are outside its
    domain ([NaN]). *)
Definition pow_integral (x y : float) : float :=
  match x, y with
  | Fin a, Fin b =>
      if (0 <? b) && (a =? 0) then Fin 0
      else if (0 <=? b) && (b mod one =? 0) then
        let e := b / one in
        if e =? 0 then Fin one else round (a ^ e) (one ^ (e - 1))
      else NaN
  | Fin a, Inf false => if a =? 0 then Fin 0 else NaN
  | _, _ => NaN
  end.

(** ** The roots of unity ([src/main.cpp], step 2) *)

(** [struct Complex { float r, i; }] of [main.cpp]. *)
Record Complex : Type := mkComplex { re : float; im : float }.

(** [M_PI] of [<cmath>]: the literal [3.14159265358979323846]. *)
Definition M_PI : F64.double :=
  F64.literal 314159265358979323846 (10 ^ 20).

Section Roots.

(** [std::cos] and [std::sin] of the C library, on [double]. *)
Variables cos sin : F64.double -> F64.double.

(** [double angle = 2.0 * M_PI * k / n]. *)
Definition angle (k n : Z) : F64.double :=
  F64.fdiv (F64.fmul (F64.fmul (F64.literal 2 1) M_PI) (F64.of_int k))
           (F64.of_int n).

(** [roots[k] = {(float)std::cos(angle), (float)std::sin(angle)}]. *)
Definition root (k n : Z) : Complex :=
  mkComplex (F64.to_float (cos (angle k n)))
            (F64.to_float (sin (angle k n))).

(** The vector [roots] after the loop over [k = 0 .. n - 1]. *)
Definition compute_roots (n : Z) : list Complex :=
  map (fun k => root (Z.of_nat k) n) (seq 0 (Z.to_nat n)).

End Roots.

(** [unit_magnitude z]: the squared magnitude of [z] is within [2^-22] of
    [1], which bounds the distance of [|z|] from [1] by the spacing of
    the floats next to [1]. *)
Definition unit_magnitude (z : Complex) : Prop :=
  exists a b,
    re z = Fin a /\ im z = Fin b /\
    Z.abs (a * a + b * b - one * one) * 2 ^ 22 <= one * one.

(** The values of [cos] and [sin] at the two angles of [n = 2], [0] and
    [M_PI], to run the loop with: [cos M_PI = -1] and
    [sin M_PI = 1.2246467991473532e-16] in double precision. *)
Definition cos_n2 (x : F64.double) : F64.double :=
  match x with
  | F64.Fin 0 => F64.literal 1 1
  | _ => F64.literal (-1) 1
  end.

Definition sin_n2 (x : F64.double) : F64.double :=
  match x with
  | F64.Fin 0 => F64.literal 0 1
  | _ => F64.literal 12246467991473532 (10 ^ 32)
  end.

(** The real number that the finite double [F64.Fin k] stands for. *)
Definition double_value (k : Z) : R := (IZR k / IZR F64.one)%R.

(** The real number that the finite float [Fin k] stands for. *)
Definition float_value (k : Z) : R := (IZR k / IZR one)%R.

(** What is asked of the C library at the finite angle [F64.Fin a]: [cos]
    and [sin] return finite doubles of magnitude at most [1], within
    [2^-52] of the cosine and the sine of the real number that the angle
    stands for. *)
Definition libm_accurate (cos_lib sin_lib : F64.double -> F64.double)
    (a : Z) : Prop :=
  exists c s,
    cos_lib (F64.Fin a) = F64.Fin c /\ sin_lib (F64.Fin a) = F64.Fin s /\
    Z.abs c <= F64.one /\ Z.abs s <= F64.one /\
    (Rabs (double_value c - cos (double_value a)) <= / 2 ^ 52)%R /\
    (Rabs (double_value s - sin (double_value a)) <= / 2 ^ 52)%R.

(** [z] is the [k]-th of the [n]-th roots of unity,
    [(cos (2 pi k / n), sin (2 pi k / n))], within [2^-24] in each
    coordinate. *)
Definition is_root_of_unity (k n : Z) (z : Complex) : Prop :=
  exists a b,
    re z = Fin a /\ im z = Fin b /\
    (Rabs (float_value a - cos (2 * PI * IZR k / IZR n)) <= / 2 ^ 24)%R /\
    (Rabs (float_value b - sin (2 * PI * IZR k / IZR n)) <= / 2 ^ 24)%R.

(** ** The Root Solver

    [main] hands the rendering to [ispc::newton_fractal_ispc], the kernel of
    [fractal.ispc], which is not among the sources: only its call, with
    its argument list, and the [Complex] struct it shares with [main.cpp]
    are.  The kernel is modelled from section 4.1 of the specification. *)

(** [struct PixelResult] of the specification: the entries of the two
    output arrays for one pixel. *)
Record PixelResult : Type :=
  mkPixelResult { root_index : Z; iteration_count : Z }.

(** Modelled from the spec: complex numbers with "ordinary (a+bi) field
    arithmetic" in single precision; the kernel's own helpers are
    missing. *)
Definition cmul (a b : Complex) : Complex :=
  mkComplex (fsub (fmul (re a) (re b)) (fmul (im a) (im b)))
            (fadd (fmul (re a) (im b)) (fmul (im a) (re b))).

(** Modelled from the spec: complex subtraction of the missing kernel. *)
Definition csub (a b : Complex) : Complex :=
  mkComplex (fsub (re a) (re b)) (fsub (im a) (im b)).

(** Modelled from the spec: "complex division" of the missing kernel,
    [a / b = a * conj b / |b|^2]. *)
Definition cdiv (a b : Complex) : Complex :=
  let d := fadd (fmul (re b) (re b)) (fmul (im b) (im b)) in
  mkComplex
    (fdiv (fadd (fmul (re a) (re b)) (fmul (im a) (im b))) d)
    (fdiv (fsub (fmul (im a) (re b)) (fmul (re a) (im b))) d).

(** Modelled from the spec: [z^k] "via repeated complex multiplication
    (no transcendental calls)", of the missing kernel. *)
Fixpoint cpow (z : Complex) (k : nat) : Complex :=
  match k with
  | O => mkComplex (literal 1 1) (literal 0 1)
  | S k' => cmul (cpow z k') z
  end.

(** Modelled from the spec: the squared distance that the missing kernel
    compares with [tolerance_sq]. *)
Definition dist_sq (a b : Complex) : float :=
  let dr := fsub (re a) (re b) in
  let di := fsub (im a) (im b) in
  fadd (fmul dr dr) (fmul di di).

(** Modelled from the spec: "find the index of the root in RootSet whose
    squared distance to z is below tolerance_sq", iterating "roots in index
    order" and stopping "at first match" (missing kernel); [k] is the index
    of the head of [roots]. *)
Fixpoint find_root (roots : list Complex) (tolerance_sq : float)
    (z : Complex) (k : Z) : option Z :=
  match roots with
  | [] => None
  | root :: rest =>
      if fltb (dist_sq z root) tolerance_sq then Some k
      else find_root rest tolerance_sq z (k + 1)
  end.

(** How the iteration of one pixel ends. *)
Inductive outcome : Type :=
| Converged (k iters : Z)
| ZeroDerivative (iters : Z)
| Exhausted.

Section RootSolver.

(** The arguments of the call in [main.cpp]. *)
Variables (width height n : Z) (roots : list Complex).
Variables (max_iterations : Z) (tolerance_sq : float).
Variables (x_min x_max y_min y_max : float).

(** The specification leaves open when [|f'(z)|] counts as "numerically
    zero"; the test is a parameter. *)
Variable deriv_is_zero : Complex -> bool.

(** Modelled from the spec: step 1 of the missing kernel, "z.real = x_min
    + px/(width-1) * (x_max-x_min), z.imag = y_min + py/(height-1) *
    (y_max-y_min)". *)
Definition pixel_to_complex (px py : Z) : Complex :=
  mkComplex
    (fadd x_min (fmul (fdiv (of_int px) (of_int (width - 1)))
                      (fsub x_max x_min)))
    (fadd y_min (fmul (fdiv (of_int py) (of_int (height - 1)))
                      (fsub y_max y_min))).

(** Modelled from the spec: "f'(z) = n * z^(n-1)" of the missing
    kernel. *)
Definition fprime (z : Complex) : Complex :=
  let zn1 := cpow z (Z.to_nat (n - 1)) in
  mkComplex (fmul (of_int n) (re zn1)) (fmul (of_int n) (im zn1)).

(** Modelled from the spec: "f(z) = z^n - 1" of the missing kernel. *)
Definition fval (z : Complex) : Complex :=
  csub (cmul (cpow z (Z.to_nat (n - 1))) z)
       (mkComplex (literal 1 1) (literal 0 1)).

(** Modelled from the spec: one Newton step of the missing kernel, "if
    |f'(z)| is numerically zero, treat as divergent/no-update and
    terminate early ... Otherwise update z <- z - f(z)/f'(z) using
    complex division"; [None] is the early termination. *)
Definition newton_step (z : Complex) : option Complex :=
  if deriv_is_zero (fprime z) then None
  else Some (csub z (cdiv (fval z) (fprime z))).

(** Modelled from the spec: steps 2 to 4 of the missing kernel, "Iterate
    up to max_iterations times", test convergence "after each update",
    and "if a root matches, stop"; [fuel] is what is left of the budget
    and [iters] the number of updates made so far. *)
Fixpoint newton (fuel : nat) (iters : Z) (z : Complex) : outcome :=
  match fuel with
  | O => Exhausted
  | S fuel' =>
      match newton_step z with
      | None => ZeroDerivative iters
      | Some z' =>
          match find_root roots tolerance_sq z' 0 with
          | Some k => Converged k (iters + 1)
          | None => newton fuel' (iters + 1) z'
          end
      end
  end.

(** Modelled from the spec: the result of the missing kernel, "return
    (root_index, iterations_used_so_far)" for a match, "(-1,
    max_iterations)" when the budget is exhausted, and "root_index = -1"
    for a zero derivative (with the updates made so far, which the
    specification does not fix). *)
Definition result_of (o : outcome) : PixelResult :=
  match o with
  | Converged k iters => mkPixelResult k iters
  | ZeroDerivative iters => mkPixelResult (-1) iters
  | Exhausted => mkPixelResult (-1) max_iterations
  end.

(** Modelled from the spec: the Root Solver of the missing kernel for the
    pixel [(px, py)]. *)
Definition root_solver (px py : Z) : PixelResult :=
  result_of (newton (Z.to_nat max_iterations) 0 (pixel_to_complex px py)).

(** Modelled from the spec: the pixel-mapping property of the missing
    kernel: the divisors are not zero, and the coordinates are finite,
    inside the viewport, and on its bounds for the edge pixels. *)
Definition pixel_mapping_ok (px py : Z) : Prop :=
  (exists dx, of_int (width - 1) = Fin dx /\ dx <> 0) /\
  (exists dy, of_int (height - 1) = Fin dy /\ dy <> 0) /\
  (exists kr ki,
      pixel_to_complex px py = mkComplex (Fin kr) (Fin ki) /\
      fleb x_min (Fin kr) = true /\ fleb (Fin kr) x_max = true /\
      fleb y_min (Fin ki) = true /\ fleb (Fin ki) y_max = true) /\
  (px = 0 -> re (pixel_to_complex px py) = x_min) /\
  (px = width - 1 -> re (pixel_to_complex px py) = x_max) /\
  (py = 0 -> im (pixel_to_complex px py) = y_min) /\
  (py = height - 1 -> im (pixel_to_complex px py) = y_max) /\
  (exists result, root_solver px py = result).

End RootSolver.

(** The viewport of [main.cpp]: [x_min = -5.0f, x_max = 5.0f,
    y_min = -5.0f, y_max = 5.0f]. *)
Definition viewport_min : float := literal (-5) 1.
Definition viewport_max : float := literal 5 1.

(** Modelled from the spec: the update "z <- z - f(z)/f'(z) using complex
    division" of the missing kernel, without the test of the derivative. *)
Definition newton_update (n : Z) (z : Complex) : Complex :=
  csub z (cdiv (fval n z) (fprime n z)).

(** Modelled from the spec: the point that [j] updates reach from [z]. *)
Fixpoint orbit (n : Z) (j : nat) (z : Complex) : Complex :=
  match j with
  | O => z
  | S j' => orbit n j' (newton_update n z)
  end.

(** Modelled from the spec: the first [j] steps from [z] each met a
    derivative that is not zero and an updated point that matches no
    root. *)
Definition unconverged_for (n : Z) (roots : list Complex)
    (tolerance_sq : float) (deriv_is_zero : Complex -> bool) (z : Complex)
    (j : nat) : Prop :=
  forall i, (i < j)%nat ->
    deriv_is_zero (fprime n (orbit n i z)) = false /\
    find_root roots tolerance_sq (orbit n (S i) z) 0 = None.

(** Modelled from the spec: a test for "numerically zero" to run the
    missing kernel with, the squared modulus being zero. *)
Definition modulus_is_zero (d : Complex) : bool :=
  feqb (fadd (fmul (re d) (re d)) (fmul (im d) (im d))) (literal 0 1).

(** ** Further definitions for the properties of [main.cpp] *)

(** The smallest channel of an RGB colour. *)
Definition floor_channel (c : RGB) : Z :=
  Z.min (red c) (Z.min (green c) (blue c)).

(** [c1] is nowhere brighter than [c2]. *)
Definition channels_le (c1 c2 : RGB) : Prop :=
  red c1 <= red c2 /\ green c1 <= green c2 /\ blue c1 <= blue c2.

(** A colour with every channel in [[0, 255]]. *)
Definition is_colour (c : option RGB) : Prop :=
  exists rgb,
    c = Some rgb /\
    0 <= red rgb <= 255 /\ 0 <= green rgb <= 255 /\ 0 <= blue rgb <= 255.

(** [const float tolerance_sq = (float)(tolerance * tolerance)], with
    [tolerance] a [double]. *)
Definition tolerance_sq_of (tolerance : F64.double) : float :=
  F64.to_float (F64.fmul tolerance tolerance).
(** * Lemmas and theorems *)

(** ** The arithmetic agrees with [SpecFloat] on the samples *)

Example samples_are_floats :
  forallb is_float samples = true /\
  forallb (fun x => float_eqb (of_spec (to_spec x)) x) samples = true /\
  forallb (fun x => valid_binary 24 128 (to_spec x)) samples = true.
Proof. vm_compute. auto. Qed.

Example arithmetic_agrees_with_SpecFloat :
  forallb (fun x =>
    forallb (fun y =>
      agrees fadd (SFadd 24 128) x y && agrees fsub (SFsub 24 128) x y &&
      agrees fmul (SFmul 24 128) x y && agrees fdiv (SFdiv 24 128) x y)
      samples) samples = true.
Proof. vm_compute. reflexivity. Qed.

Example of_int_agrees_with_SpecFloat :
  forallb (fun z =>
    float_eqb (of_int z) (of_spec (binary_normalize 24 128 z 0 false)))
    [0; 1; 5; 255; 16777216; 16777217; 16777219; 2147483647; -2147483648;
     -3; 1655; 100] = true.
Proof. vm_compute. reflexivity. Qed.

Example double_arithmetic_agrees_with_SpecFloat :
  forallb (fun x => valid_binary 53 1024 (to_spec64 x)) samples64 = true /\
  forallb (fun x =>
    forallb (fun y =>
      agrees64 F64.fmul (SFmul 53 1024) x y &&
      agrees64 F64.fdiv (SFdiv 53 1024) x y) samples64) samples64 = true /\
  forallb to_float_agrees samples64 = true.
Proof. vm_compute. auto. Qed.

(** [M_PI] is the double [0x400921FB54442D18]. *)
Example M_PI_bits : M_PI = F64.Fin (7074237752028440 * 2 ^ (1074 - 51)).
Proof. vm_compute. reflexivity. Qed.

(** ** Rounding: monotone, and the identity on representable values *)

Lemma div_le_cross n1 d1 n2 d2 :
  0 < d1 -> 0 < d2 -> n1 * d2 <= n2 * d1 -> n1 / d1 <= n2 / d2.
Proof.
  intros H1 H2 H.
  apply Z.div_le_lower_bound; [lia|].
  pose proof (Z.mul_div_le n1 d1 H1).
  (* d2 * (n1/d1) <= n2 : d1 * d2 * q1 <= d2 * n1 <= n2 d1 *)
  assert (d1 * (d2 * (n1 / d1)) <= d1 * n2) by nia.
  nia.
Qed.

Lemma rne_bounds n d : 0 < d -> n / d <= rne n d <= n / d + 1.
Proof.
  intros Hd. unfold rne.
  destruct (2 * (n mod d) ?= d); [destruct (Z.even (n / d))|..]; lia.
Qed.

Lemma rne_exact k d : 0 < d -> rne (k * d) d = k.
Proof.
  intros Hd. unfold rne.
  rewrite Z.mod_mul, Z.div_mul by lia.
  destruct (Z.compare_spec (2 * 0) d); lia.
Qed.

Lemma rne_mono n1 d1 n2 d2 :
  0 < d1 -> 0 < d2 -> n1 * d2 <= n2 * d1 -> rne n1 d1 <= rne n2 d2.
Proof.
  intros H1 H2 H.
  pose proof (div_le_cross _ _ _ _ H1 H2 H) as Hq.
  pose proof (rne_bounds n1 d1 H1) as B1.
  pose proof (rne_bounds n2 d2 H2) as B2.
  destruct (Z.eq_dec (n1 / d1) (n2 / d2)) as [E|NE]; [|lia].
  pose proof (Z.div_mod n1 d1 ltac:(lia)) as E1.
  pose proof (Z.div_mod n2 d2 ltac:(lia)) as E2.
  pose proof (Z.mod_pos_bound n1 d1 H1) as M1.
  pose proof (Z.mod_pos_bound n2 d2 H2) as M2.
  assert (Hr : (n1 mod d1) * d2 <= (n2 mod d2) * d1) by nia.
  unfold rne in *. rewrite <- E in *.
  set (q := n1 / d1) in *. set (r1 := n1 mod d1) in *. set (r2 := n2 mod d2) in *.
  destruct (Z.compare_spec (2 * r1) d1), (Z.compare_spec (2 * r2) d2);
    destruct (Z.even q); try lia; exfalso; nia.
Qed.

Lemma ulp_exp_nonneg k : 0 <= ulp_exp k.
Proof. unfold ulp_exp. lia. Qed.

Lemma ulp_exp_upper k : 0 <= k -> k < 2 ^ (ulp_exp k + prec).
Proof.
  intros Hk. unfold ulp_exp, prec.
  destruct (Z.eq_dec k 0) as [->|Hn].
  - simpl. lia.
  - pose proof (Z.log2_spec k ltac:(lia)) as [_ Hu].
    pose proof (Z.log2_nonneg k).
    eapply Z.lt_le_trans; [exact Hu|].
    apply Z.pow_le_mono_r; lia.
Qed.

Lemma ulp_exp_lower k : 0 < ulp_exp k -> 2 ^ (ulp_exp k + prec - 1) <= k.
Proof.
  unfold ulp_exp, prec. intros H.
  assert (Hl : 0 < Z.log2 k) by lia.
  assert (0 < k) by (destruct k; simpl in *; lia).
  pose proof (Z.log2_spec k ltac:(lia)) as [Hlo _].
  replace (Z.max 0 (Z.log2 k + 1 - 24) + 24 - 1) with (Z.log2 k) by lia.
  exact Hlo.
Qed.

Lemma ulp_exp_mono a b : a <= b -> ulp_exp a <= ulp_exp b.
Proof.
  intros H. unfold ulp_exp.
  pose proof (Z.log2_le_mono a b H). lia.
Qed.

Lemma round_pos_nonneg n d : 0 <= n -> 0 < d -> 0 <= round_pos n d.
Proof.
  intros Hn Hd. unfold round_pos.
  pose proof (ulp_exp_nonneg (n / d)).
  assert (0 < 2 ^ ulp_exp (n / d)) by (apply Z.pow_pos_nonneg; lia).
  pose proof (rne_bounds n (2 ^ ulp_exp (n / d) * d) ltac:(nia)).
  assert (0 <= n / (2 ^ ulp_exp (n / d) * d)) by (apply Z.div_pos; nia).
  nia.
Qed.

Lemma round_pos_mono n1 d1 n2 d2 :
  0 <= n1 -> 0 < d1 -> 0 < d2 -> n1 * d2 <= n2 * d1 ->
  round_pos n1 d1 <= round_pos n2 d2.
Proof.
  intros Hn H1 H2 H.
  pose proof (div_le_cross _ _ _ _ H1 H2 H) as Hq.
  assert (Hk1 : 0 <= n1 / d1) by (apply Z.div_pos; lia).
  pose proof (ulp_exp_mono _ _ Hq) as Hs.
  unfold round_pos.
  set (s1 := ulp_exp (n1 / d1)) in *. set (s2 := ulp_exp (n2 / d2)) in *.
  assert (Hs1 : 0 <= s1) by apply ulp_exp_nonneg.
  assert (Hu1 : 0 < 2 ^ s1) by (apply Z.pow_pos_nonneg; lia).
  assert (Hu2 : 0 < 2 ^ s2) by (apply Z.pow_pos_nonneg; lia).
  destruct (Z.eq_dec s1 s2) as [E|NE].
  - rewrite <- E. apply Z.mul_le_mono_nonneg_l; [lia|].
    apply rne_mono; nia.
  - assert (Hlt : s1 < s2) by lia.
    pose proof (ulp_exp_lower (n2 / d2) ltac:(fold s2; lia)) as Hlo. fold s2 in Hlo.
    pose proof (ulp_exp_upper (n1 / d1) Hk1) as Hup. fold s1 in Hup.
    unfold prec in *.
    (* boundary B = 2^(s2+23) *)
    assert (HB : 2 ^ (s2 + 24 - 1) = 2 ^ s1 * 2 ^ (s2 + 23 - s1)).
    { rewrite <- Z.pow_add_r by lia. f_equal. lia. }
    assert (HB2 : 2 ^ (s2 + 24 - 1) = 2 ^ s2 * 2 ^ 23).
    { rewrite <- Z.pow_add_r by lia. f_equal. lia. }
    assert (Hle : 2 ^ (s1 + 24) <= 2 ^ (s2 + 24 - 1)) by (apply Z.pow_le_mono_r; lia).
    assert (Hn1 : n1 < 2 ^ (s2 + 24 - 1) * d1).
    { assert (n1 / d1 < 2 ^ (s2 + 24 - 1)) by lia.
      pose proof (Z.div_mod n1 d1 ltac:(lia)).
      pose proof (Z.mod_pos_bound n1 d1 H1). nia. }
    assert (Hn2 : 2 ^ (s2 + 24 - 1) * d2 <= n2).
    { pose proof (Z.mul_div_le n2 d2 H2). nia. }
    assert (R1 : rne n1 (2 ^ s1 * d1) <= 2 ^ (s2 + 23 - s1)).
    { rewrite <- (rne_exact (2 ^ (s2 + 23 - s1)) (2 ^ s1 * d1)) by nia.
      apply rne_mono; try nia. }
    assert (R2 : 2 ^ 23 <= rne n2 (2 ^ s2 * d2)).
    { rewrite <- (rne_exact (2 ^ 23) (2 ^ s2 * d2)) by nia.
      apply rne_mono; try nia. }
    nia.
Qed.

Lemma pow2_pos s : 0 <= s -> 0 < 2 ^ s.
Proof. intros. apply Z.pow_pos_nonneg; lia. Qed.

Lemma round_pos_exact k d :
  0 <= k -> 0 < d -> k mod 2 ^ ulp_exp k = 0 -> round_pos (k * d) d = k.
Proof.
  intros Hk Hd Hm. unfold round_pos.
  rewrite Z.div_mul by lia.
  pose proof (pow2_pos _ (ulp_exp_nonneg k)) as Hu.
  set (u := 2 ^ ulp_exp k) in *.
  pose proof (Z.div_mod k u ltac:(lia)) as E. rewrite Hm, Z.add_0_r in E.
  replace (k * d) with (k / u * (u * d)) by nia.
  rewrite rne_exact by nia. lia.
Qed.

Lemma round_pos_0 d : 0 < d -> round_pos 0 d = 0.
Proof. intros Hd. apply (round_pos_exact 0 d); [lia|lia|reflexivity]. Qed.

Lemma round_z_exact k d :
  0 < d -> Z.abs k mod 2 ^ ulp_exp (Z.abs k) = 0 -> round_z (k * d) d = k.
Proof.
  intros Hd Hm. unfold round_z.
  destruct (Z.ltb_spec (k * d) 0) as [Hn|Hn].
  - assert (k < 0) by nia.
    replace (- (k * d)) with (Z.abs k * d) by lia.
    rewrite round_pos_exact; lia.
  - assert (0 <= k) by nia.
    replace k with (Z.abs k) at 1 by lia.
    rewrite round_pos_exact; lia.
Qed.

Lemma round_z_mono n1 d1 n2 d2 :
  0 < d1 -> 0 < d2 -> n1 * d2 <= n2 * d1 -> round_z n1 d1 <= round_z n2 d2.
Proof.
  intros H1 H2 H. unfold round_z.
  destruct (Z.ltb_spec n1 0), (Z.ltb_spec n2 0).
  - apply Z.opp_le_mono. rewrite !Z.opp_involutive.
    apply round_pos_mono; lia.
  - pose proof (round_pos_nonneg (- n1) d1 ltac:(lia) H1).
    pose proof (round_pos_nonneg n2 d2 ltac:(lia) H2). lia.
  - exfalso. nia.
  - apply round_pos_mono; lia.
Qed.

Lemma ulp_exp_le_of_lt m s : 0 <= s -> 0 <= m < 2 ^ (s + prec) -> ulp_exp m <= s.
Proof.
  intros Hs [H0 Hm]. unfold ulp_exp.
  destruct (Z.eq_dec m 0) as [->|Hn]; [simpl; lia|].
  assert (Z.log2 m < s + prec) by (apply Z.log2_lt_pow2; lia).
  unfold prec in *. lia.
Qed.

(** A multiple [2^s * r] of the unit [2^s] with at most 24 significant bits
    (or [2^24] units, the start of the next binade) is representable. *)
Lemma scaled_mod_ulp s r :
  0 <= s -> 0 <= r <= 2 ^ prec ->
  (2 ^ s * r) mod 2 ^ ulp_exp (2 ^ s * r) = 0.
Proof.
  intros Hs [Hr0 Hr].
  pose proof (pow2_pos s Hs) as Hu.
  destruct (Z.eq_dec r (2 ^ prec)) as [->|Hne].
  - rewrite <- Z.pow_add_r by (unfold prec; lia).
    unfold ulp_exp. rewrite Z.log2_pow2 by (unfold prec; lia).
    replace (Z.max 0 (s + prec + 1 - prec)) with (s + 1) by lia.
    replace (s + prec) with (prec - 1 + (s + 1)) by lia.
    rewrite Z.pow_add_r by (unfold prec; lia).
    apply Z.mod_mul. pose proof (pow2_pos (s + 1)); lia.
  - set (m := 2 ^ s * r).
    assert (Hm : 0 <= m < 2 ^ (s + prec)).
    { unfold m. rewrite Z.pow_add_r by (unfold prec; lia). nia. }
    pose proof (ulp_exp_le_of_lt m s Hs Hm) as He.
    pose proof (ulp_exp_nonneg m) as He0.
    set (e := ulp_exp m) in *.
    unfold m. replace s with (s - e + e) by lia.
    rewrite Z.pow_add_r by lia.
    replace (2 ^ (s - e) * 2 ^ e * r) with (2 ^ (s - e) * r * 2 ^ e) by lia.
    apply Z.mod_mul. pose proof (pow2_pos e); lia.
Qed.

Lemma round_pos_mod_ulp n d :
  0 <= n -> 0 < d -> round_pos n d mod 2 ^ ulp_exp (round_pos n d) = 0.
Proof.
  intros Hn Hd. unfold round_pos.
  assert (Hk : 0 <= n / d) by (apply Z.div_pos; lia).
  pose proof (ulp_exp_nonneg (n / d)) as Hs.
  pose proof (ulp_exp_upper (n / d) Hk) as Hup.
  set (s := ulp_exp (n / d)) in *.
  pose proof (pow2_pos s Hs) as Hu.
  apply scaled_mod_ulp; [lia|].
  pose proof (rne_bounds n (2 ^ s * d) ltac:(nia)) as [B1 B2].
  assert (0 <= n / (2 ^ s * d)) by (apply Z.div_pos; nia).
  split; [lia|].
  assert (n / (2 ^ s * d) < 2 ^ prec); [|lia].
  apply Z.div_lt_upper_bound; [nia|].
  rewrite Z.pow_add_r in Hup by (unfold prec; lia).
  pose proof (Z.div_mod n d ltac:(lia)).
  pose proof (Z.mod_pos_bound n d Hd). nia.
Qed.

Lemma round_is_float n d : 0 < d -> is_float (round n d) = true.
Proof.
  intros Hd. unfold round.
  destruct (Z.leb_spec huge (Z.abs (round_z n d))) as [H|H]; [reflexivity|].
  simpl. unfold representable.
  apply andb_true_intro; split; [|apply Z.ltb_lt; exact H].
  apply Z.eqb_eq. unfold round_z.
  destruct (Z.ltb_spec n 0).
  - rewrite Z.abs_opp.
    pose proof (round_pos_nonneg (- n) d ltac:(lia) Hd).
    rewrite Z.abs_eq by lia. apply round_pos_mod_ulp; lia.
  - pose proof (round_pos_nonneg n d ltac:(lia) Hd).
    rewrite Z.abs_eq by lia. apply round_pos_mod_ulp; lia.
Qed.

(** ** Ranges of floats *)

Lemma representable_spec k :
  representable k = true ->
  Z.abs k mod 2 ^ ulp_exp (Z.abs k) = 0 /\ Z.abs k < huge.
Proof.
  unfold representable. intros H.
  apply andb_prop in H as [H1 H2].
  apply Z.eqb_eq in H1. apply Z.ltb_lt in H2. auto.
Qed.

Lemma round_exact k d :
  0 < d -> representable k = true -> round (k * d) d = Fin k.
Proof.
  intros Hd Hk. apply representable_spec in Hk as [Hm Hb].
  unfold round. rewrite round_z_exact by assumption.
  destruct (Z.leb_spec huge (Z.abs k)); [lia|reflexivity].
Qed.

Lemma round_between lo hi n d :
  0 < d -> representable lo = true -> representable hi = true ->
  lo * d <= n <= hi * d -> between lo hi (round n d).
Proof.
  intros Hd Hlo Hhi [H1 H2].
  apply representable_spec in Hlo as [Hlm Hlb].
  apply representable_spec in Hhi as [Hhm Hhb].
  pose proof (round_z_mono (lo * d) d n d Hd Hd ltac:(nia)) as L.
  pose proof (round_z_mono n d (hi * d) d Hd Hd ltac:(nia)) as U.
  rewrite round_z_exact in L, U by assumption.
  unfold round.
  destruct (Z.leb_spec huge (Z.abs (round_z n d))); [lia|].
  exists (round_z n d). auto.
Qed.

Lemma round_mono n1 d1 n2 d2 k1 k2 :
  0 < d1 -> 0 < d2 -> n1 * d2 <= n2 * d1 ->
  round n1 d1 = Fin k1 -> round n2 d2 = Fin k2 -> k1 <= k2.
Proof.
  intros H1 H2 H. unfold round.
  pose proof (round_z_mono n1 d1 n2 d2 H1 H2 H).
  destruct (huge <=? Z.abs (round_z n1 d1)); [discriminate|].
  destruct (huge <=? Z.abs (round_z n2 d2)); [discriminate|].
  intros [= <-] [= <-]. assumption.
Qed.

Lemma fleb_between a b x :
  fleb (Fin a) x = true -> fleb x (Fin b) = true -> between a b x.
Proof.
  destruct x as [k|[|]|]; unfold fleb; simpl; try discriminate.
  intros H1 H2. exists k. split; [reflexivity|].
  destruct (Z.compare_spec a k), (Z.compare_spec k b); try discriminate; lia.
Qed.

Lemma fltb_Fin a b : fltb (Fin a) (Fin b) = true <-> a < b.
Proof.
  unfold fltb; simpl. destruct (Z.compare_spec a b); split;
    try discriminate; try lia; reflexivity.
Qed.

Lemma fleb_Fin a b : fleb (Fin a) (Fin b) = true <-> a <= b.
Proof.
  unfold fleb; simpl. destruct (Z.compare_spec a b); split;
    try discriminate; try lia; reflexivity.
Qed.

Lemma one_pos : 0 < one.
Proof. reflexivity. Qed.

Lemma literal_0 : literal 0 1 = Fin 0.
Proof. vm_compute. reflexivity. Qed.

Lemma literal_1 : literal 1 1 = Fin one.
Proof. vm_compute. reflexivity. Qed.

Lemma literal_6 : literal 6 1 = Fin (6 * one).
Proof. vm_compute. reflexivity. Qed.

Lemma of_int_255 : of_int 255 = Fin (255 * one).
Proof. vm_compute. reflexivity. Qed.

Lemma representable_0 : representable 0 = true.
Proof. reflexivity. Qed.

Lemma representable_one : representable one = true.
Proof. vm_compute. reflexivity. Qed.

Lemma representable_255 : representable (255 * one) = true.
Proof. vm_compute. reflexivity. Qed.

Lemma round_sandwich n1 d1 n2 d2 lo hi n d :
  0 < d1 -> 0 < d2 -> 0 < d ->
  round n1 d1 = Fin lo -> round n2 d2 = Fin hi ->
  n1 * d <= n * d1 -> n * d2 <= n2 * d ->
  between lo hi (round n d).
Proof.
  intros H1 H2 Hd E1 E2 L U.
  pose proof (round_z_mono n1 d1 n d H1 Hd L) as HL.
  pose proof (round_z_mono n d n2 d2 Hd H2 U) as HU.
  unfold round in *.
  destruct (Z.leb_spec huge (Z.abs (round_z n1 d1))); [discriminate|].
  destruct (Z.leb_spec huge (Z.abs (round_z n2 d2))); [discriminate|].
  injection E1 as E1. injection E2 as E2.
  destruct (Z.leb_spec huge (Z.abs (round_z n d))); [lia|].
  exists (round_z n d). split; [reflexivity|lia].
Qed.

Lemma between_weaken lo hi lo' hi' x :
  between lo hi x -> lo' <= lo -> hi <= hi' -> between lo' hi' x.
Proof. intros (k & -> & H) ? ?. exists k. split; [reflexivity|lia]. Qed.

(** ** Conversions to integers *)

Lemma trunc_nonneg k : 0 <= k -> trunc k = k / one.
Proof. intros H. unfold trunc. apply Z.quot_div_nonneg; [lia|reflexivity]. Qed.

Lemma trunc_range k c :
  0 <= c -> 0 <= k <= c * one -> 0 <= trunc k <= c.
Proof.
  intros Hc [H0 H1]. rewrite trunc_nonneg by lia.
  pose proof one_pos.
  split; [apply Z.div_pos; lia|].
  apply Z.div_le_upper_bound; lia.
Qed.

Lemma trunc_mono a b : 0 <= a <= b -> trunc a <= trunc b.
Proof.
  intros H. rewrite !trunc_nonneg by lia.
  apply Z.div_le_mono; [reflexivity|lia].
Qed.

Lemma to_uchar_between x :
  between 0 (255 * one) x ->
  exists k, x = Fin k /\ to_uchar x = Some (trunc k) /\ 0 <= trunc k <= 255.
Proof.
  intros (k & -> & H). exists k. split; [reflexivity|].
  pose proof (trunc_range k 255 ltac:(lia) H) as [T0 T1].
  unfold to_uchar.
  destruct (Z.leb_spec 0 (trunc k)); [|lia].
  destruct (Z.leb_spec (trunc k) 255); [|lia].
  simpl. auto.
Qed.

(** ** Ranges of the operations [hsv_to_rgb] uses *)

Lemma fmul_unit x y :
  between 0 one x -> between 0 one y -> between 0 one (fmul x y).
Proof.
  intros (a & -> & Ha) (b & -> & Hb). cbn [fmul].
  pose proof one_pos.
  apply round_between;
    [assumption | exact representable_0 | exact representable_one | nia].
Qed.

Lemma fmul_255 x :
  between 0 one x -> between 0 (255 * one) (fmul x (of_int 255)).
Proof.
  intros (a & -> & Ha). rewrite of_int_255. cbn [fmul].
  pose proof one_pos.
  apply round_between;
    [assumption | exact representable_0 | exact representable_255 | nia].
Qed.

Lemma fsub_1 x :
  between 0 one x -> between 0 one (fsub (literal 1 1) x).
Proof.
  intros (a & -> & Ha). rewrite literal_1. cbn [fsub fadd fneg].
  apply round_between;
    [lia | exact representable_0 | exact representable_one | lia].
Qed.

Lemma fmul_0_l x k : x = Fin k -> fmul (Fin 0) x = Fin 0.
Proof. intros ->. cbn [fmul]. apply (round_exact 0 one); reflexivity. Qed.

(** The channel a value in [[0, 1]] is scaled to. *)
Lemma channel_defined x :
  between 0 one x ->
  exists k, fmul x (of_int 255) = Fin k /\
            to_uchar (fmul x (of_int 255)) = Some (trunc k) /\
            0 <= trunc k <= 255.
Proof. intros H. apply to_uchar_between, fmul_255, H. Qed.

(** ** Claims about [hsv_to_rgb] *)

(** C4: with saturation zero, [hsv_to_rgb] returns a gray triple, every
    channel being the truncation of [v * 255], whatever the hue is. *)
Theorem hsv_to_rgb_gray :
  forall h v : float,
    fleb (literal 0 1) v = true -> fleb v (literal 1 1) = true ->
    exists k, fmul v (of_int 255) = Fin k /\
              0 <= trunc k <= 255 /\
              hsv_to_rgb h (literal 0 1) v
              = Some (mkRGB (trunc k) (trunc k) (trunc k)).
Proof.
  intros h v H0 H1. rewrite literal_0 in H0. rewrite literal_1 in H1.
  destruct (channel_defined v (fleb_between _ _ _ H0 H1)) as (k & E & U & R).
  exists k. split; [exact E|]. split; [exact R|].
  unfold hsv_to_rgb. rewrite literal_0.
  change (feqb (Fin 0) (Fin 0)) with true. cbv iota.
  unfold rgb_of. rewrite U. reflexivity.
Qed.

Lemma hsv_to_rgb_gray_witness :
  exists k, fmul (literal 1 2) (of_int 255) = Fin k /\
            0 <= trunc k <= 255 /\
            hsv_to_rgb NaN (literal 0 1) (literal 1 2)
            = Some (mkRGB (trunc k) (trunc k) (trunc k)).
Proof.
  apply (hsv_to_rgb_gray NaN (literal 1 2)); vm_compute; reflexivity.
Defined.

Lemma fltb_fleb x y : fltb x y = true -> fleb x y = true.
Proof. unfold fltb, fleb. destruct (fcompare x y) as [[ | | ]|]; auto. Qed.

Lemma of_int_exact z : Z.abs z <= 2 ^ prec -> of_int z = Fin (z * one).
Proof.
  intros Hz. unfold of_int.
  replace (round (z * one) 1) with (round (z * one * 1) 1) by (f_equal; lia).
  apply round_exact; [lia|].
  unfold representable. apply andb_true_intro. split.
  - apply Z.eqb_eq. rewrite Z.abs_mul.
    rewrite (Z.abs_eq one) by (pose proof one_pos; lia).
    rewrite Z.mul_comm. apply (scaled_mod_ulp 149 (Z.abs z)); lia.
  - apply Z.ltb_lt. rewrite Z.abs_mul.
    rewrite (Z.abs_eq one) by (pose proof one_pos; lia).
    assert (2 ^ prec * one < huge) by reflexivity.
    pose proof one_pos. nia.
Qed.

(** The largest float below [1.0f] is [1 - 2^-24]. *)
Lemma below_one_pred k :
  representable k = true -> 0 <= k < one -> k <= one - 2 ^ 125.
Proof.
  intros Hr [H0 H1]. apply representable_spec in Hr as [Hm _].
  rewrite Z.abs_eq in Hm by lia.
  destruct (Z.lt_ge_cases k (2 ^ 148)) as [Hs|Hs].
  - assert (2 ^ 148 <= one - 2 ^ 125) by (vm_compute; discriminate). lia.
  - assert (Z.log2 k = 148) by (apply Z.log2_unique; [lia|split; [exact Hs|exact H1]]).
    unfold ulp_exp, prec in Hm. rewrite H in Hm.
    change (Z.max 0 (148 + 1 - 24)) with 125 in Hm.
    pose proof (Z.div_mod k (2 ^ 125) ltac:(lia)) as E.
    rewrite Hm, Z.add_0_r in E.
    assert (one = 2 ^ 125 * 2 ^ 24) by reflexivity.
    assert (k / 2 ^ 125 < 2 ^ 24) by (apply Z.div_lt_upper_bound; lia).
    lia.
Qed.

(** The fractional part of a non-negative float is a float. *)
Lemma frac_representable m :
  representable m = true -> 0 <= m -> representable (m mod one) = true.
Proof.
  intros Hr H0. apply representable_spec in Hr as [Hm _].
  rewrite Z.abs_eq in Hm by lia.
  pose proof one_pos as H1.
  pose proof (Z.mod_pos_bound m one H1) as [R0 R1].
  pose proof (Z.mod_le m one H0 H1) as Rle.
  unfold representable. rewrite Z.abs_eq by lia.
  apply andb_true_intro. split.
  2:{ apply Z.ltb_lt. assert (one < huge) by reflexivity. lia. }
  apply Z.eqb_eq.
  set (r := m mod one) in *.
  pose proof (ulp_exp_nonneg r) as E0.
  assert (E1 : ulp_exp r <= 125) by (apply ulp_exp_le_of_lt; [lia|split; [lia|exact R1]]).
  pose proof (ulp_exp_mono r m Rle) as E2.
  set (er := ulp_exp r) in *. set (em := ulp_exp m) in *.
  pose proof (pow2_pos er E0) as P.
  apply Z.mod_divide; [lia|].
  assert (D1 : (2 ^ er | m)).
  { apply Z.divide_trans with (2 ^ em).
    - exists (2 ^ (em - er)). rewrite <- Z.pow_add_r by lia. f_equal. lia.
    - apply Z.mod_divide; [pose proof (pow2_pos em); lia|exact Hm]. }
  assert (D2 : (2 ^ er | one)).
  { exists (2 ^ (149 - er)). rewrite <- Z.pow_add_r by lia.
    unfold one. f_equal. lia. }
  unfold r. rewrite Z.mod_eq by lia.
  apply Z.divide_sub_r; [exact D1|].
  apply Z.divide_mul_l. exact D2.
Qed.

(** The product [h * 6.0f] of a float [h] in [[0, 1)] stays below [6]:
    the largest such [h] gives [6 - 2^-21]. *)
Lemma hue_times_six kh :
  representable kh = true -> 0 <= kh < one ->
  between 0 (6 * one - 2 ^ 128) (fmul (Fin kh) (literal 6 1)).
Proof.
  intros Hr H. pose proof (below_one_pred kh Hr H) as Hp.
  pose proof one_pos as H1.
  rewrite literal_6. cbn [fmul].
  apply (round_sandwich 0 1 ((one - 2 ^ 125) * (6 * one)) one);
    [lia | assumption | assumption | | | | ].
  - vm_compute; reflexivity.
  - vm_compute; reflexivity.
  - nia.
  - apply Z.mul_le_mono_nonneg_r; [lia|].
    apply Z.mul_le_mono_nonneg_r; lia.
Qed.

Lemma to_int_small m i :
  0 <= m -> i = m / one -> 0 <= i <= int_max -> to_int (Fin m) = Some i.
Proof.
  intros H0 -> Hi. unfold to_int. rewrite trunc_nonneg by assumption.
  destruct (Z.leb_spec int_min (m / one)) as [_|B];
    [|unfold int_min in B; lia].
  destruct (Z.leb_spec (m / one) int_max) as [_|B]; [|lia].
  reflexivity.
Qed.

(** [x - (float)(int)x] is the fractional part of [x], exactly. *)
Lemma fsub_int_part m i :
  representable m = true -> 0 <= m -> i = m / one -> 0 <= i <= 2 ^ prec ->
  fsub (Fin m) (of_int i) = Fin (m - i * one) /\ 0 <= m - i * one < one.
Proof.
  intros Hr H0 Hi Hr5. pose proof one_pos as H1.
  assert (E : m - i * one = m mod one) by (rewrite Z.mod_eq by lia; subst i; lia).
  pose proof (Z.mod_pos_bound m one H1) as B.
  split; [|lia].
  rewrite of_int_exact by lia.
  cbn [fsub fadd fneg].
  replace (m + - (i * one)) with ((m mod one) * 1) by lia.
  rewrite E. apply round_exact; [lia|]. apply frac_representable; assumption.
Qed.

Lemma channel_of_unit x :
  between 0 one x ->
  exists c, channel x c /\ to_uchar (fmul x (of_int 255)) = Some c.
Proof.
  intros H. destruct (channel_defined x H) as (k & E & U & R).
  exists (trunc k). split; [|exact U].
  exists k. auto.
Qed.

Lemma channel_fun x c c' : channel x c -> channel x c' -> c = c'.
Proof.
  intros (k & E & -> & _) (k' & E' & -> & _).
  rewrite E in E'. injection E' as ->. reflexivity.
Qed.

(** Channels are monotone in the value they scale. *)
Lemma channel_mono a b ca cb :
  0 <= a <= b -> channel (Fin a) ca -> channel (Fin b) cb -> ca <= cb.
Proof.
  intros H (ka & Ea & -> & Ra) (kb & Eb & -> & Rb).
  pose proof one_pos as H1.
  rewrite of_int_255 in Ea, Eb. cbn [fmul] in Ea, Eb.
  assert (L : ka <= kb).
  { refine (round_mono _ _ _ _ _ _ H1 H1 _ Ea Eb).
    apply Z.mul_le_mono_nonneg_r; [lia|].
    apply Z.mul_le_mono_nonneg_r; lia. }
  assert (Z : 0 <= ka).
  { assert (E0 : round (0 * (255 * one)) one = Fin 0) by (vm_compute; reflexivity).
    refine (round_mono _ _ _ _ _ _ H1 H1 _ E0 Ea).
    apply Z.mul_le_mono_nonneg_r; [lia|].
    apply Z.mul_le_mono_nonneg_r; lia. }
  apply trunc_mono. lia.
Qed.

(** Multiplying a float in [[0, 1]] by a factor in [[0, 1]] does not
    increase it. *)
Lemma fmul_unit_le kv x :
  representable kv = true -> 0 <= kv <= one -> between 0 one x ->
  exists kp, fmul (Fin kv) x = Fin kp /\ 0 <= kp <= kv.
Proof.
  intros Rv Hv (kx & -> & Hx). pose proof one_pos as H1.
  cbn [fmul].
  apply (round_sandwich (0 * one) one (kv * one) one); try assumption.
  - apply (round_exact 0 one H1). reflexivity.
  - apply (round_exact kv one H1 Rv).
  - apply Z.mul_le_mono_nonneg_r; [lia|]. nia.
  - apply Z.mul_le_mono_nonneg_r; [lia|]. nia.
Qed.

(** The product [h * 6.0f] for a hue in [[0, 1]]. *)
Lemma hue_times_six_closed h :
  between 0 one h ->
  exists m, fmul h (literal 6 1) = Fin m /\ 0 <= m <= 6 * one /\
            representable m = true.
Proof.
  intros (kh & -> & Hh). pose proof one_pos as H1.
  pose proof (round_is_float (kh * (6 * one)) one H1) as R.
  rewrite literal_6. cbn [fmul] in *.
  assert (B : between 0 (6 * one) (round (kh * (6 * one)) one)).
  { apply round_between; [assumption|reflexivity|vm_compute; reflexivity|nia]. }
  destruct B as (m & E & B). rewrite E in *. exists m. auto.
Qed.

(** What [hsv_to_rgb] computes for a hue, a non-zero saturation and a
    value in [[0, 1]]: the sector is [i mod 6] for [i = floor (h * 6)],
    which is [6] for the hue [1.0f]; no channel exceeds the one of [v]. *)
Lemma hsv_to_rgb_unit h s v :
  between 0 one h -> between 0 one s -> feqb s (literal 0 1) = false ->
  between 0 one v ->
  exists m i cv cp cq ct,
    fmul h (literal 6 1) = Fin m /\ i = m / one /\ 0 <= i <= 6 /\
    0 <= m <= 6 * one /\ 0 <= m - i * one < one /\
    fsub (fmul h (literal 6 1)) (of_int i) = Fin (m - i * one) /\
    let f := Fin (m - i * one) in
    let p := fmul v (fsub (literal 1 1) s) in
    let q := fmul v (fsub (literal 1 1) (fmul s f)) in
    let t := fmul v (fsub (literal 1 1) (fmul s (fsub (literal 1 1) f))) in
    channel v cv /\ channel p cp /\ channel q cq /\ channel t ct /\
    (is_float v = true -> cp <= cv /\ cq <= cv /\ ct <= cv) /\
    hsv_to_rgb h s v = Some (sector_channels (Z.rem i 6) cv cp cq ct).
Proof.
  intros Bh Bs Ns Bv. pose proof one_pos as H1.
  (* the sector and the fractional part *)
  destruct (hue_times_six_closed h Bh) as (m & Em & Bm & Rm).
  set (i := m / one).
  assert (Hi : 0 <= i <= 6).
  { unfold i. split; [apply Z.div_pos; lia|].
    apply Z.div_le_upper_bound; lia. }
  destruct (fsub_int_part m i Rm ltac:(lia) eq_refl ltac:(unfold prec; lia))
    as [Ef Bf].
  assert (BF : between 0 one (Fin (m - i * one))).
  { exists (m - i * one). split; [reflexivity|lia]. }
  (* the four channels *)
  destruct (channel_of_unit v Bv) as (cv & Cv & Uv).
  pose proof (fsub_1 _ Bs) as Xp.
  pose proof (fsub_1 _ (fmul_unit _ _ Bs BF)) as Xq.
  pose proof (fsub_1 _ (fmul_unit _ _ Bs (fsub_1 _ BF))) as Xt.
  destruct (channel_of_unit _ (fmul_unit _ _ Bv Xp)) as (cp & Cp & Up).
  destruct (channel_of_unit _ (fmul_unit _ _ Bv Xq)) as (cq & Cq & Uq).
  destruct (channel_of_unit _ (fmul_unit _ _ Bv Xt)) as (ct & Ct & Ut).
  exists m, i, cv, cp, cq, ct.
  split; [exact Em|]. split; [reflexivity|]. split; [exact Hi|].
  split; [exact Bm|]. split; [exact Bf|]. split; [rewrite Em; exact Ef|].
  cbv zeta.
  split; [exact Cv|]. split; [exact Cp|]. split; [exact Cq|].
  split; [exact Ct|]. split.
  { (* no channel exceeds the one of [v] *)
    destruct Bv as (kv & -> & Hv). cbn [is_float]. intros Rv.
    destruct (fmul_unit_le kv _ Rv Hv Xp) as (kp & Ep & Hp).
    destruct (fmul_unit_le kv _ Rv Hv Xq) as (kq & Eq' & Hq).
    destruct (fmul_unit_le kv _ Rv Hv Xt) as (kt & Et & Ht).
    rewrite Ep in Cp. rewrite Eq' in Cq. rewrite Et in Ct.
    split; [|split].
    - apply (channel_mono kp kv); [lia|exact Cp|exact Cv].
    - apply (channel_mono kq kv); [lia|exact Cq|exact Cv].
    - apply (channel_mono kt kv); [lia|exact Ct|exact Cv]. }
  (* the code *)
  unfold hsv_to_rgb. rewrite Ns, Em.
  rewrite (to_int_small m i ltac:(lia) eq_refl ltac:(unfold int_max; lia)).
  cbv zeta. rewrite Ef.
  unfold rgb_of.
  assert (C : i = 0 \/ i = 1 \/ i = 2 \/ i = 3 \/ i = 4 \/ i = 5 \/ i = 6)
    by lia.
  destruct C as [C|[C|[C|[C|[C|[C|C]]]]]]; rewrite C in *;
    cbv iota; rewrite ?Uv, ?Up, ?Uq, ?Ut; reflexivity.
Qed.

(** C3: on the domain that the comment of [hsv_to_rgb] gives, "H [0, 1],
    S [0, 1], V [0, 1]", for a hue in [[0, 1)], a saturation in [(0, 1]] and
    a value in [[0, 1]], [hsv_to_rgb] takes the sector [i = floor (h * 6)],
    which is one of [0 .. 5], with fractional part [f], computes
    [p = v * (1 - s)], [q = v * (1 - s * f)] and [t = v * (1 - s * (1 - f))],
    assigns the channels by the fixed table and scales each one to
    [[0, 255]], truncating; and [hsv_to_rgb (0, 0.9, 1.0)] is
    [(255, 25, 25)]. *)
Theorem hsv_to_rgb_sectors :
  forall h s v : float,
    is_float h = true ->
    fleb (literal 0 1) h = true -> fltb h (literal 1 1) = true ->
    fltb (literal 0 1) s = true -> fleb s (literal 1 1) = true ->
    fleb (literal 0 1) v = true -> fleb v (literal 1 1) = true ->
    hsv_sectors h s v /\
    hsv_to_rgb (literal 0 1) (literal 9 10) (literal 1 1)
    = Some (mkRGB 255 25 25).
Proof.
  intros h s v Fh Hh0 Hh1 Hs0 Hs1 Hv0 Hv1.
  split; [|vm_compute; reflexivity].
  rewrite literal_0, literal_1 in *.
  pose proof one_pos as H1.
  pose proof (fleb_between _ _ _ Hh0 (fltb_fleb _ _ Hh1)) as Bh.
  pose proof (fleb_between _ _ _ (fltb_fleb _ _ Hs0) Hs1) as Bs.
  pose proof (fleb_between _ _ _ Hv0 Hv1) as Bv.
  assert (Ns : feqb s (literal 0 1) = false).
  { destruct Bs as (ks & -> & _). apply fltb_Fin in Hs0. rewrite literal_0.
    unfold feqb, fcompare. destruct (Z.compare_spec ks 0); try lia; reflexivity. }
  destruct (hsv_to_rgb_unit h s v Bh Bs Ns Bv)
    as (m & i & cv & cp & cq & ct & Em & Ei & Hi & Bm & Bf & Ef & Cs).
  cbv zeta in Cs. destruct Cs as (Cv & Cp & Cq & Ct & _ & E).
  (* a hue below [1.0f] stays out of the seventh sector *)
  assert (Hi5 : i <= 5).
  { destruct Bh as (kh & -> & Bh). apply fltb_Fin in Hh1. cbn [is_float] in Fh.
    destruct (hue_times_six kh Fh ltac:(lia)) as (m' & Em' & Bm').
    rewrite Em in Em'. injection Em' as <-.
    assert (m / one < 6); [|lia].
    apply Z.div_lt_upper_bound; lia. }
  rewrite (Z.rem_small i 6) in E by lia.
  exists m, i, cv, cp, cq, ct.
  split; [exact Em|]. split; [exact Ei|]. split; [lia|].
  split; [exact Bf|]. split; [exact Ef|].
  cbv zeta. auto.
Qed.

Lemma hsv_to_rgb_sectors_witness :
  hsv_sectors (literal 1 3) (literal 9 10) (literal 1 2) /\
  hsv_to_rgb (literal 0 1) (literal 9 10) (literal 1 1)
  = Some (mkRGB 255 25 25).
Proof.
  apply (hsv_to_rgb_sectors (literal 1 3) (literal 9 10) (literal 1 2));
    vm_compute; reflexivity.
Defined.

(** ** The loop body: conversions and quotients *)

Lemma representable_2_31 : representable (2 ^ 31 * one) = true.
Proof. vm_compute. reflexivity. Qed.

(** [(float)z] of a non-negative [int] is finite and monotone in [z]. *)
Lemma of_int_nonneg z :
  0 <= z <= int_max ->
  exists k, of_int z = Fin k /\ 0 <= k <= 2 ^ 31 * one /\ (1 <= z -> one <= k).
Proof.
  intros Hz. unfold int_max in Hz. pose proof one_pos as H1. unfold of_int.
  destruct (Z.eq_dec z 0) as [->|Hn].
  - exists 0. split; [vm_compute; reflexivity|]. lia.
  - assert (B : between one (2 ^ 31 * one) (round (z * one) 1)).
    { apply round_between;
        [lia|exact representable_one|exact representable_2_31|nia]. }
    destruct B as (k & E & B). exists k. split; [exact E|]. lia.
Qed.

Lemma of_int_mono z1 z2 k1 k2 :
  z1 <= z2 -> of_int z1 = Fin k1 -> of_int z2 = Fin k2 -> k1 <= k2.
Proof.
  intros Hz E1 E2. pose proof one_pos.
  refine (round_mono _ _ _ _ _ _ _ _ _ E1 E2); nia.
Qed.

Lemma fdiv_Fin a b :
  0 < b -> fdiv (Fin a) (Fin b) = round (a * one) b.
Proof.
  intros Hb. cbn [fdiv].
  destruct (Z.eqb_spec b 0); [lia|].
  rewrite Z.sgn_pos, Z.abs_eq by lia. f_equal. lia.
Qed.

(** A quotient [a / b] with [0 <= a <= b] lies in [[0, 1]]. *)
Lemma fdiv_unit a b :
  0 <= a <= b -> 0 < b -> between 0 one (fdiv (Fin a) (Fin b)).
Proof.
  intros Ha Hb. rewrite fdiv_Fin by assumption. pose proof one_pos.
  apply round_between;
    [assumption|exact representable_0|exact representable_one|nia].
Qed.

Lemma fdiv_self a : 0 < a -> fdiv (Fin a) (Fin a) = Fin one.
Proof.
  intros Ha. rewrite fdiv_Fin by assumption.
  rewrite Z.mul_comm. apply round_exact; [assumption|exact representable_one].
Qed.

Lemma fdiv_mono a1 a2 b k1 k2 :
  a1 <= a2 -> 0 < b ->
  fdiv (Fin a1) (Fin b) = Fin k1 -> fdiv (Fin a2) (Fin b) = Fin k2 ->
  k1 <= k2.
Proof.
  intros Ha Hb. rewrite !fdiv_Fin by assumption. intros E1 E2.
  pose proof one_pos.
  refine (round_mono _ _ _ _ _ _ Hb Hb _ E1 E2).
  apply Z.mul_le_mono_nonneg_r; [lia|]. nia.
Qed.

Lemma fsub_1_anti k1 k2 r1 r2 :
  k1 <= k2 ->
  fsub (literal 1 1) (Fin k1) = Fin r1 ->
  fsub (literal 1 1) (Fin k2) = Fin r2 -> r2 <= r1.
Proof.
  intros Hk. rewrite literal_1. cbn [fsub fadd fneg]. intros E1 E2.
  refine (round_mono _ _ _ _ _ _ _ _ _ E2 E1); lia.
Qed.

Lemma fsub_1_1 : fsub (literal 1 1) (Fin one) = Fin 0.
Proof. vm_compute. reflexivity. Qed.

(** The hue of a root index below [n] lies in [[0, 1]]. *)
Lemma hue_unit root_index n :
  0 <= root_index < n -> n <= int_max ->
  between 0 one (fdiv (of_int root_index) (of_int n)).
Proof.
  intros Hr Hn.
  destruct (of_int_nonneg root_index ltac:(lia)) as (kr & Er & Br & _).
  destruct (of_int_nonneg n ltac:(lia)) as (kn & En & Bn & Pn).
  pose proof (of_int_mono root_index n kr kn ltac:(lia) Er En).
  pose proof one_pos.
  rewrite Er, En. apply fdiv_unit; lia.
Qed.

(** [1 - iters / max_iterations] for an iteration count within the budget:
    a float in [[0, 1]]. *)
Lemma unit_value iters max_iterations :
  0 <= iters <= max_iterations -> 1 <= max_iterations <= int_max ->
  exists k,
    fsub (literal 1 1) (fdiv (of_int iters) (of_int max_iterations)) = Fin k /\
    0 <= k <= one /\ representable k = true.
Proof.
  intros Hi Hm.
  destruct (of_int_nonneg iters ltac:(lia)) as (ki & Ei & Bi & _).
  destruct (of_int_nonneg max_iterations ltac:(lia)) as (km & Em & Bm & Pm).
  pose proof (of_int_mono iters max_iterations ki km ltac:(lia) Ei Em).
  pose proof one_pos.
  rewrite Ei, Em.
  pose proof (fdiv_unit ki km ltac:(lia) ltac:(lia)) as Bq.
  destruct (fsub_1 _ Bq) as (k & E & B).
  exists k. split; [exact E|]. split; [exact B|].
  destruct Bq as (q & Eq' & _). rewrite Eq', literal_1 in E.
  cbn [fsub fadd fneg] in E.
  pose proof (round_is_float (one + - q) 1 ltac:(lia)) as R.
  rewrite E in R. exact R.
Qed.

Lemma unit_value_anti a b max_iterations ka kb :
  0 <= a <= b -> b <= max_iterations -> 1 <= max_iterations <= int_max ->
  fsub (literal 1 1) (fdiv (of_int a) (of_int max_iterations)) = Fin ka ->
  fsub (literal 1 1) (fdiv (of_int b) (of_int max_iterations)) = Fin kb ->
  kb <= ka.
Proof.
  intros Ha Hb Hm.
  destruct (of_int_nonneg a ltac:(lia)) as (xa & Ea & Ba & _).
  destruct (of_int_nonneg b ltac:(lia)) as (xb & Eb & Bb & _).
  destruct (of_int_nonneg max_iterations ltac:(lia)) as (km & Em & Bm & Pm).
  pose proof (of_int_mono a b xa xb ltac:(lia) Ea Eb).
  pose proof (of_int_mono b max_iterations xb km ltac:(lia) Eb Em).
  pose proof one_pos.
  rewrite Ea, Eb, Em.
  destruct (fdiv_unit xa km ltac:(lia) ltac:(lia)) as (qa & Qa & _).
  destruct (fdiv_unit xb km ltac:(lia) ltac:(lia)) as (qb & Qb & _).
  pose proof (fdiv_mono xa xb km qa qb ltac:(lia) ltac:(lia) Qa Qb).
  rewrite Qa, Qb. intros E1 E2.
  exact (fsub_1_anti qa qb ka kb ltac:(lia) E1 E2).
Qed.

Lemma saturation_unit : between 0 one (literal 9 10).
Proof.
  pose proof one_pos. unfold literal.
  apply round_between;
    [lia|exact representable_0|exact representable_one|lia].
Qed.

Lemma saturation_nonzero : feqb (literal 9 10) (literal 0 1) = false.
Proof. vm_compute. reflexivity. Qed.

(** The colour of a converged pixel whose value is a float in [[0, 1]]:
    its brightness is the channel of the value, and no channel exceeds
    it. *)
Lemma colour_of_unit h kv :
  between 0 one h -> representable kv = true -> 0 <= kv <= one ->
  exists c cv,
    hsv_to_rgb h (literal 9 10) (Fin kv) = Some c /\
    channel (Fin kv) cv /\ value_channel c = cv /\
    0 <= red c <= cv /\ 0 <= green c <= cv /\ 0 <= blue c <= cv.
Proof.
  intros Bh Rv Hv.
  assert (Bv : between 0 one (Fin kv)) by (exists kv; auto).
  destruct (hsv_to_rgb_unit h _ _ Bh saturation_unit saturation_nonzero Bv)
    as (m & i & cv & cp & cq & ct & _ & _ & Hi & _ & _ & _ & Cs).
  cbv zeta in Cs. destruct Cs as (Cv & Cp & Cq & Ct & Le & E).
  destruct (Le Rv) as (Lp & Lq & Lt).
  destruct Cv as (k1 & E1 & -> & R1). destruct Cp as (k2 & E2 & -> & R2).
  destruct Cq as (k3 & E3 & -> & R3). destruct Ct as (k4 & E4 & -> & R4).
  exists (sector_channels (Z.rem i 6) (trunc k1) (trunc k2) (trunc k3)
            (trunc k4)), (trunc k1).
  split; [exact E|]. split; [exists k1; auto|].
  assert (C : i = 0 \/ i = 1 \/ i = 2 \/ i = 3 \/ i = 4 \/ i = 5 \/ i = 6)
    by lia.
  unfold value_channel.
  destruct C as [C|[C|[C|[C|[C|[C|C]]]]]]; rewrite C;
    cbn [Z.rem Z.quotrem Z.pos_div_eucl sector_channels red green blue];
    cbn; lia.
Qed.

(** ** Claims about the post-processing loop *)

(** Pixel [i] of the image is the loop body applied to entry [i] of the
    two arrays. *)
Lemma post_process_nth pow n max_iterations gamma output_root output_iters :
  forall i r it,
    nth_error output_root i = Some r ->
    nth_error output_iters i = Some it ->
    nth_error (post_process pow n max_iterations gamma output_root
                 output_iters) i
    = Some (colorize pow n max_iterations gamma r it).
Proof.
  unfold post_process.
  revert output_iters.
  induction output_root as [|r0 rs IH]; intros [|i0 its] [|i] r it Hr Hi;
    try discriminate.
  - injection Hr as ->. injection Hi as ->. reflexivity.
  - cbn [combine map nth_error] in *. apply IH; assumption.
Qed.

(** C1: a pixel with [root_index >= 0] gets the colour
    [hsv_to_rgb (hue, 0.9, value)] with [hue = root_index / n] and
    [value = (1 - iters / max_iterations) ^ gamma]; the colour of pixel [i]
    of the image is this function of the pixel's [root_index] and [iters]
    and of [n], [max_iterations] and [gamma] alone. *)
Theorem colorize_converged :
  forall pow n max_iterations gamma output_root output_iters i root_index iters,
    nth_error output_root i = Some root_index ->
    nth_error output_iters i = Some iters ->
    0 <= root_index ->
    let hue := fdiv (of_int root_index) (of_int n) in
    let value :=
      pow (fsub (literal 1 1) (fdiv (of_int iters) (of_int max_iterations)))
          gamma in
    colorize pow n max_iterations gamma root_index iters
    = hsv_to_rgb hue (literal 9 10) value /\
    nth_error (post_process pow n max_iterations gamma output_root
                 output_iters) i
    = Some (hsv_to_rgb hue (literal 9 10) value).
Proof.
  intros pow n max_iterations gamma output_root output_iters i root_index
    iters Hr Hi H0 hue value.
  assert (E : colorize pow n max_iterations gamma root_index iters
              = hsv_to_rgb hue (literal 9 10) value).
  { unfold colorize. destruct (Z.eqb_spec root_index (-1)); [lia|].
    reflexivity. }
  split; [exact E|].
  rewrite <- E. apply post_process_nth; assumption.
Qed.

Lemma colorize_converged_witness :
  colorize pow_integral 5 100 (literal 4 1) 3 20
  = hsv_to_rgb (fdiv (of_int 3) (of_int 5)) (literal 9 10)
      (pow_integral
         (fsub (literal 1 1) (fdiv (of_int 20) (of_int 100))) (literal 4 1)) /\
  nth_error (post_process pow_integral 5 100 (literal 4 1) [-1; 3] [100; 20])
    1%nat
  = Some (hsv_to_rgb (fdiv (of_int 3) (of_int 5)) (literal 9 10)
            (pow_integral
               (fsub (literal 1 1) (fdiv (of_int 20) (of_int 100)))
               (literal 4 1))).
Proof.
  apply (colorize_converged pow_integral 5 100 (literal 4 1) [-1; 3] [100; 20]
           1%nat 3 20); [reflexivity|reflexivity|lia].
Defined.

(** C2: a pixel with [root_index = -1] is black, whatever its iteration
    count and whatever [gamma] (and [pow], [n], [max_iterations]) are. *)
Theorem colorize_unconverged :
  forall pow n max_iterations gamma iters,
    colorize pow n max_iterations gamma (-1) iters = Some (mkRGB 0 0 0).
Proof. intros. reflexivity. Qed.

(** ** Brightness *)

Lemma fmul_0_255 : fmul (Fin 0) (of_int 255) = Fin 0.
Proof. vm_compute. reflexivity. Qed.

Lemma channel_0 : channel (Fin 0) 0.
Proof.
  exists 0. split; [exact fmul_0_255|]. split; [reflexivity|lia].
Qed.

(** C9: with [gamma = 1] the brightness does not increase with the
    iteration count: for [a <= b] within the budget, the value handed to
    [hsv_to_rgb] for [a] is at least the one for [b], and so is the value
    channel (the largest channel) of the colour of every root index below
    [n].  [pow (x, 1)] is [x]. *)
Theorem colorize_monotone :
  forall pow n max_iterations root_index a b,
    (forall k, representable k = true -> pow (Fin k) (literal 1 1) = Fin k) ->
    1 <= max_iterations <= int_max ->
    0 <= a <= b -> b <= max_iterations ->
    0 <= root_index ->
    fleb (pixel_value pow max_iterations (literal 1 1) b)
         (pixel_value pow max_iterations (literal 1 1) a) = true /\
    (root_index < n <= int_max ->
     exists ca cb,
       colorize pow n max_iterations (literal 1 1) root_index a = Some ca /\
       colorize pow n max_iterations (literal 1 1) root_index b = Some cb /\
       value_channel cb <= value_channel ca).
Proof.
  intros pow n max_iterations root_index a b Hpow Hm Hab Hb Hr.
  destruct (unit_value a max_iterations ltac:(lia) Hm) as (ka & Ea & Ba & Ra).
  destruct (unit_value b max_iterations ltac:(lia) Hm) as (kb & Eb & Bb & Rb).
  pose proof (unit_value_anti a b max_iterations ka kb Hab Hb Hm Ea Eb) as L.
  assert (Va : pixel_value pow max_iterations (literal 1 1) a = Fin ka).
  { unfold pixel_value. rewrite Ea. apply Hpow, Ra. }
  assert (Vb : pixel_value pow max_iterations (literal 1 1) b = Fin kb).
  { unfold pixel_value. rewrite Eb. apply Hpow, Rb. }
  split.
  - rewrite Va, Vb. apply fleb_Fin. exact L.
  - intros Hn.
    pose proof (hue_unit root_index n ltac:(lia) ltac:(lia)) as Bh.
    destruct (colour_of_unit _ ka Bh Ra Ba) as (ca & va & Ca & Cha & Xa & _).
    destruct (colour_of_unit _ kb Bh Rb Bb) as (cb & vb & Cb & Chb & Xb & _).
    exists ca, cb.
    unfold colorize. destruct (Z.eqb_spec root_index (-1)); [lia|].
    cbv zeta. rewrite Va, Vb.
    split; [exact Ca|]. split; [exact Cb|].
    rewrite Xa, Xb.
    apply (channel_mono kb ka); [lia|exact Chb|exact Cha].
Qed.

Lemma pow_integral_1 k :
  representable k = true -> pow_integral (Fin k) (literal 1 1) = Fin k.
Proof.
  intros Rk. rewrite literal_1. unfold pow_integral.
  change (0 <? one) with true. change (0 <=? one) with true.
  change (one mod one =? 0) with true. change (one / one) with 1.
  cbn [andb Z.eqb]. destruct (Z.eqb_spec k 0) as [->|_]; [reflexivity|].
  change (1 - 1) with 0. rewrite Z.pow_0_r, Z.pow_1_r.
  replace k with (k * 1) at 1 by lia.
  apply round_exact; [lia|exact Rk].
Qed.

Lemma colorize_monotone_witness :
  fleb (pixel_value pow_integral 100 (literal 1 1) 60)
       (pixel_value pow_integral 100 (literal 1 1) 20) = true /\
  exists ca cb,
    colorize pow_integral 5 100 (literal 1 1) 3 20 = Some ca /\
    colorize pow_integral 5 100 (literal 1 1) 3 60 = Some cb /\
    value_channel cb <= value_channel ca.
Proof.
  destruct (colorize_monotone pow_integral 5 100 3 20 60 pow_integral_1)
    as [V C]; try (unfold int_max; lia).
  split; [exact V|]. apply C. unfold int_max. lia.
Defined.

(** C10: a pixel that converged with [iters = max_iterations] is black:
    its value is [pow (0, gamma) = 0] for [gamma > 0], which zeroes every
    channel; the image shows it as it shows an unconverged pixel. *)
Theorem colorize_budget_black :
  forall pow n max_iterations gamma root_index,
    (forall g, fltb (literal 0 1) g = true ->
               pow (literal 0 1) g = literal 0 1) ->
    fltb (literal 0 1) gamma = true ->
    1 <= max_iterations <= int_max ->
    0 <= root_index < n -> n <= int_max ->
    pixel_value pow max_iterations gamma max_iterations = literal 0 1 /\
    colorize pow n max_iterations gamma root_index max_iterations
    = Some (mkRGB 0 0 0) /\
    forall iters,
      colorize pow n max_iterations gamma root_index max_iterations
      = colorize pow n max_iterations gamma (-1) iters.
Proof.
  intros pow n max_iterations gamma root_index Hpow Hg Hm Hr Hn.
  assert (V : pixel_value pow max_iterations gamma max_iterations
              = literal 0 1).
  { unfold pixel_value.
    destruct (of_int_nonneg max_iterations ltac:(lia)) as (km & Em & _ & Pm).
    pose proof one_pos.
    rewrite Em, fdiv_self by lia. rewrite fsub_1_1.
    rewrite <- literal_0. apply Hpow, Hg. }
  assert (E : colorize pow n max_iterations gamma root_index max_iterations
              = Some (mkRGB 0 0 0)).
  { unfold colorize. destruct (Z.eqb_spec root_index (-1)); [lia|].
    cbv zeta. rewrite V, literal_0.
    pose proof (hue_unit root_index n Hr Hn) as Bh.
    pose proof one_pos.
    destruct (colour_of_unit _ 0 Bh representable_0 ltac:(lia))
      as (c & cv & Ec & Cv & _ & Br & Bg & Bb).
    pose proof (channel_fun _ _ _ Cv channel_0) as ->.
    rewrite Ec. destruct c as [cr cg cb]. cbn [red green blue] in *.
    repeat f_equal; lia. }
  split; [exact V|]. split; [exact E|].
  intros iters. rewrite E. reflexivity.
Qed.

Lemma pow_integral_0 g :
  fltb (literal 0 1) g = true -> pow_integral (literal 0 1) g = literal 0 1.
Proof.
  rewrite literal_0. destruct g as [k|[|]|]; try discriminate.
  - intros H. apply fltb_Fin in H. unfold pow_integral.
    destruct (Z.ltb_spec 0 k); [|lia]. reflexivity.
  - reflexivity.
Qed.

Lemma colorize_budget_black_witness :
  pixel_value pow_integral 100 (literal 4 1) 100 = literal 0 1 /\
  colorize pow_integral 5 100 (literal 4 1) 3 100 = Some (mkRGB 0 0 0) /\
  forall iters,
    colorize pow_integral 5 100 (literal 4 1) 3 100
    = colorize pow_integral 5 100 (literal 4 1) (-1) iters.
Proof.
  apply (colorize_budget_black pow_integral 5 100 (literal 4 1) 3
           pow_integral_0);
    [vm_compute; reflexivity|unfold int_max; lia|lia|unfold int_max; lia].
Defined.

(** ** The Root Solver *)

Lemma find_root_range roots tolerance_sq z :
  forall k j,
    find_root roots tolerance_sq z k = Some j ->
    k <= j < k + Z.of_nat (length roots).
Proof.
  induction roots as [|root rest IH]; intros k j H; [discriminate|].
  cbn [find_root] in H. cbn [length]. rewrite Nat2Z.inj_succ.
  destruct (fltb (dist_sq z root) tolerance_sq).
  - injection H as <-. lia.
  - apply IH in H. lia.
Qed.

Section RootSolverFacts.

Variables (n : Z) (roots : list Complex).
Variables (max_iterations : Z) (tolerance_sq : float).
Variable deriv_is_zero : Complex -> bool.

(** Where the iteration can end, and after how many updates. *)
Lemma newton_range :
  forall fuel iters z,
    match newton n roots tolerance_sq deriv_is_zero fuel iters z with
    | Converged k its =>
        0 <= k < Z.of_nat (length roots) /\
        iters < its <= iters + Z.of_nat fuel
    | ZeroDerivative its => iters <= its < iters + Z.of_nat fuel
    | Exhausted => True
    end.
Proof.
  induction fuel as [|fuel IH]; intros iters z; [exact I|].
  cbn [newton]. rewrite Nat2Z.inj_succ.
  destruct (newton_step n deriv_is_zero z) as [z'|]; [|lia].
  destruct (find_root roots tolerance_sq z' 0) as [k|] eqn:F.
  - apply find_root_range in F. lia.
  - specialize (IH (iters + 1) z').
    destruct (newton n roots tolerance_sq deriv_is_zero fuel
                (iters + 1) z'); lia.
Qed.

End RootSolverFacts.

(** C8: for every pixel the Root Solver returns a root index in
    [{-1, 0, ..., n-1}] and an iteration count in [[0, max_iterations]];
    the RootSet has [n] elements. *)
Theorem root_solver_range :
  forall width height n roots max_iterations tolerance_sq
         x_min x_max y_min y_max deriv_is_zero px py,
    Z.of_nat (length roots) = n ->
    0 <= max_iterations ->
    let result :=
      root_solver width height n roots max_iterations tolerance_sq
        x_min x_max y_min y_max deriv_is_zero px py in
    (root_index result = -1 \/ 0 <= root_index result < n) /\
    0 <= iteration_count result <= max_iterations.
Proof.
  intros width height n roots max_iterations tolerance_sq
    x_min x_max y_min y_max deriv_is_zero px py Hn Hm result.
  unfold result, root_solver.
  pose proof (newton_range n roots tolerance_sq deriv_is_zero
                (Z.to_nat max_iterations) 0
                (pixel_to_complex width height x_min x_max y_min y_max px py))
    as R.
  rewrite Z2Nat.id in R by assumption.
  destruct (newton n roots tolerance_sq deriv_is_zero
              (Z.to_nat max_iterations) 0 _);
    cbn [result_of root_index iteration_count]; lia.
Qed.

Lemma root_solver_range_witness :
  let result :=
    root_solver 2 2 1 [mkComplex (literal 1 1) (literal 0 1)] 10
      (literal 1 1000000) viewport_min viewport_max viewport_min
      viewport_max (fun _ => false) 1 1 in
  (root_index result = -1 \/ 0 <= root_index result < 1) /\
  0 <= iteration_count result <= 10.
Proof.
  apply (root_solver_range 2 2 1 [mkComplex (literal 1 1) (literal 0 1)] 10
           (literal 1 1000000) viewport_min viewport_max viewport_min
           viewport_max (fun _ => false) 1 1); [reflexivity|lia].
Defined.

Section NewtonOrbit.

Variables (n : Z) (roots : list Complex) (tolerance_sq : float).
Variable deriv_is_zero : Complex -> bool.

Lemma newton_step_update z :
  newton_step n deriv_is_zero z
  = if deriv_is_zero (fprime n z) then None else Some (newton_update n z).
Proof. reflexivity. Qed.

Lemma unconverged_for_step z j :
  deriv_is_zero (fprime n z) = false ->
  find_root roots tolerance_sq (newton_update n z) 0 = None ->
  unconverged_for n roots tolerance_sq deriv_is_zero (newton_update n z) j ->
  unconverged_for n roots tolerance_sq deriv_is_zero z (S j).
Proof.
  intros D F H [|i] Hi.
  - split; [exact D|exact F].
  - apply (H i). lia.
Qed.

(** The iteration, read along the orbit of its starting point: it ends at
    the first step whose derivative is zero or whose updated point
    matches a root, and exhausts the budget when there is none. *)
Lemma newton_orbit :
  forall fuel iters z,
    match newton n roots tolerance_sq deriv_is_zero fuel iters z with
    | Converged k its =>
        exists j, (j < fuel)%nat /\ its = iters + Z.of_nat j + 1 /\
          unconverged_for n roots tolerance_sq deriv_is_zero z j /\
          deriv_is_zero (fprime n (orbit n j z)) = false /\
          find_root roots tolerance_sq (orbit n (S j) z) 0 = Some k
    | ZeroDerivative its =>
        exists j, (j < fuel)%nat /\ its = iters + Z.of_nat j /\
          unconverged_for n roots tolerance_sq deriv_is_zero z j /\
          deriv_is_zero (fprime n (orbit n j z)) = true
    | Exhausted =>
        unconverged_for n roots tolerance_sq deriv_is_zero z fuel
    end.
Proof.
  induction fuel as [|fuel IH]; intros iters z.
  - cbn [newton]. intros i Hi. lia.
  - cbn [newton]. rewrite newton_step_update.
    destruct (deriv_is_zero (fprime n z)) eqn:D.
    + exists 0%nat. split; [lia|]. split; [cbn; lia|].
      split; [intros i Hi; lia|exact D].
    + destruct (find_root roots tolerance_sq (newton_update n z) 0)
        as [k|] eqn:F.
      * exists 0%nat. split; [lia|]. split; [cbn; lia|].
        split; [intros i Hi; lia|]. split; [exact D|exact F].
      * specialize (IH (iters + 1) (newton_update n z)).
        destruct (newton n roots tolerance_sq deriv_is_zero fuel
                    (iters + 1) (newton_update n z)) as [k its|its|].
        -- destruct IH as (j & Hj & -> & U & Dj & Fj).
           exists (S j). split; [lia|]. split; [lia|].
           split; [apply unconverged_for_step; assumption|].
           split; [exact Dj|exact Fj].
        -- destruct IH as (j & Hj & -> & U & Dj).
           exists (S j). split; [lia|]. split; [lia|].
           split; [apply unconverged_for_step; assumption|exact Dj].
        -- apply unconverged_for_step; assumption.
Qed.

End NewtonOrbit.

(** C6: along the orbit of the pixel's point under the Newton update, the
    Root Solver ends at the first step [j] within the budget whose
    derivative is numerically zero, if no updated point matched a root
    before: it forms no update there ([newton_step] has no result, so no
    quotient) and returns [root_index = -1], with the [j] updates made;
    when the whole budget passes with no zero derivative and no match it
    returns [(-1, max_iterations)]; a step whose updated point matches
    root [k] returns [k], which is not [-1]; and a pixel has
    [root_index = -1] in these two cases only. *)
Theorem root_solver_unconverged :
  forall width height n roots max_iterations tolerance_sq
         x_min x_max y_min y_max deriv_is_zero px py,
    let z := pixel_to_complex width height x_min x_max y_min y_max px py in
    let budget := Z.to_nat max_iterations in
    let result :=
      root_solver width height n roots max_iterations tolerance_sq
        x_min x_max y_min y_max deriv_is_zero px py in
    let zero j := deriv_is_zero (fprime n (orbit n j z)) in
    let unconverged j :=
      unconverged_for n roots tolerance_sq deriv_is_zero z j in
    (forall j, (j < budget)%nat -> unconverged j -> zero j = true ->
       newton_step n deriv_is_zero (orbit n j z) = None /\
       result = mkPixelResult (-1) (Z.of_nat j)) /\
    (unconverged budget -> result = mkPixelResult (-1) max_iterations) /\
    (forall j k, (j < budget)%nat -> unconverged j -> zero j = false ->
       find_root roots tolerance_sq (orbit n (S j) z) 0 = Some k ->
       result = mkPixelResult k (Z.of_nat j + 1) /\ k <> -1) /\
    (root_index result = -1 ->
     (exists j, (j < budget)%nat /\ unconverged j /\ zero j = true) \/
     unconverged budget).
Proof.
  intros width height n roots max_iterations tolerance_sq
    x_min x_max y_min y_max deriv_is_zero px py z budget result zero
    unconverged.
  pose proof (newton_orbit n roots tolerance_sq deriv_is_zero budget 0 z)
    as O.
  unfold result, root_solver. fold z. fold budget.
  destruct (newton n roots tolerance_sq deriv_is_zero budget 0 z)
    as [k its|its|] eqn:E; cbn [result_of root_index].
  - destruct O as (j0 & Hj0 & -> & U0 & D0 & F0).
    assert (K : 0 <= k).
    { apply find_root_range in F0. lia. }
    split; [|split; [|split]].
    + intros j Hj U D. exfalso.
      destruct (Nat.lt_trichotomy j j0) as [L|[->|L]].
      * destruct (U0 j L) as [D' _]. unfold zero in D. congruence.
      * unfold zero in D. congruence.
      * destruct (U j0 L) as [_ F']. congruence.
    + intros U. exfalso. destruct (U j0 Hj0) as [_ F']. congruence.
    + intros j k' Hj U D F.
      destruct (Nat.lt_trichotomy j j0) as [L|[->|L]].
      * exfalso. destruct (U0 j L) as [_ F']. congruence.
      * split; [|apply find_root_range in F; lia].
        assert (k' = k) by congruence. subst k'.
        f_equal; lia.
      * exfalso. destruct (U j0 L) as [_ F']. congruence.
    + intros H. lia.
  - destruct O as (j0 & Hj0 & -> & U0 & D0).
    split; [|split; [|split]].
    + intros j Hj U D.
      split; [rewrite newton_step_update; unfold zero in D; rewrite D;
              reflexivity|].
      destruct (Nat.lt_trichotomy j j0) as [L|[->|L]].
      * exfalso. destruct (U0 j L) as [D' _]. unfold zero in D. congruence.
      * f_equal; lia.
      * exfalso. destruct (U j0 L) as [D' _]. congruence.
    + intros U. exfalso. destruct (U j0 Hj0) as [D' _]. congruence.
    + intros j k Hj U D F. exfalso.
      destruct (Nat.lt_trichotomy j j0) as [L|[->|L]].
      * destruct (U0 j L) as [_ F']. congruence.
      * unfold zero in D. congruence.
      * destruct (U j0 L) as [D' _]. congruence.
    + intros _. left. exists j0. split; [exact Hj0|].
      split; [exact U0|exact D0].
  - split; [|split; [|split]].
    + intros j Hj U D. exfalso.
      destruct (O j Hj) as [D' _]. unfold zero in D. congruence.
    + intros _. reflexivity.
    + intros j k Hj U D F. exfalso.
      destruct (O j Hj) as [_ F']. congruence.
    + intros _. right. exact O.
Qed.

(** The centre pixel of a 3 x 3 image for [n = 2] is the point [0],
    where [f'(z) = 2 z] is zero: the Root Solver stops there before any
    update. *)
Lemma root_solver_unconverged_witness :
  newton_step 2 modulus_is_zero
    (pixel_to_complex 3 3 viewport_min viewport_max viewport_min
       viewport_max 1 1) = None /\
  root_solver 3 3 2
    [mkComplex (literal 1 1) (literal 0 1);
     mkComplex (literal (-1) 1) (literal 0 1)]
    50 (literal 1 1000000) viewport_min viewport_max viewport_min
    viewport_max modulus_is_zero 1 1
  = mkPixelResult (-1) 0.
Proof.
  apply (proj1 (root_solver_unconverged 3 3 2
           [mkComplex (literal 1 1) (literal 0 1);
            mkComplex (literal (-1) 1) (literal 0 1)]
           50 (literal 1 1000000) viewport_min viewport_max viewport_min
           viewport_max modulus_is_zero 1 1) 0%nat).
  - lia.
  - intros i Hi. lia.
  - vm_compute. reflexivity.
Defined.

(** ** The pixel mapping *)

Lemma viewport_min_eq : viewport_min = Fin (- 5 * one).
Proof. vm_compute. reflexivity. Qed.

Lemma viewport_max_eq : viewport_max = Fin (5 * one).
Proof. vm_compute. reflexivity. Qed.

Lemma viewport_extent : fsub viewport_max viewport_min = Fin (10 * one).
Proof. vm_compute. reflexivity. Qed.

Lemma representable_5 : representable (5 * one) = true.
Proof. vm_compute. reflexivity. Qed.

Lemma representable_m5 : representable (- 5 * one) = true.
Proof. vm_compute. reflexivity. Qed.

Lemma representable_10 : representable (10 * one) = true.
Proof. vm_compute. reflexivity. Qed.

Lemma Fin_inj a b : Fin a = Fin b -> a = b.
Proof. congruence. Qed.

(** One coordinate of the mapping, for an image of [w >= 2] pixels along
    the axis. *)
Lemma axis_coordinate w p :
  2 <= w <= int_max -> 0 <= p < w ->
  (exists d, of_int (w - 1) = Fin d /\ d <> 0) /\
  (exists k,
      fadd viewport_min
        (fmul (fdiv (of_int p) (of_int (w - 1)))
              (fsub viewport_max viewport_min)) = Fin k /\
      - 5 * one <= k <= 5 * one /\
      (p = 0 -> k = - 5 * one) /\ (p = w - 1 -> k = 5 * one)).
Proof.
  intros Hw Hp. pose proof one_pos as H1.
  destruct (of_int_nonneg p ltac:(lia)) as (kp & Ep & Bp & _).
  destruct (of_int_nonneg (w - 1) ltac:(lia)) as (kd & Ed & Bd & Pd).
  pose proof (of_int_mono p (w - 1) kp kd ltac:(lia) Ep Ed) as Lpd.
  specialize (Pd ltac:(lia)).
  split; [exists kd; split; [exact Ed|lia]|].
  rewrite viewport_extent, viewport_min_eq, Ep, Ed.
  destruct (fdiv_unit kp kd ltac:(lia) ltac:(lia)) as (q & Eq' & Bq).
  rewrite Eq'. cbn [fmul].
  assert (Bm : between 0 (10 * one) (round (q * (10 * one)) one)).
  { apply round_between;
      [assumption|exact representable_0|exact representable_10|nia]. }
  destruct Bm as (m & Em & Bm). rewrite Em. cbn [fadd].
  assert (Bk : between (- 5 * one) (5 * one) (round (- 5 * one + m) 1)).
  { apply round_between;
      [lia|exact representable_m5|exact representable_5|lia]. }
  destruct Bk as (k & Ek & Bk). exists k.
  split; [exact Ek|]. split; [exact Bk|]. split.
  - intros ->.
    assert (kp = 0).
    { assert (E0 : of_int 0 = Fin 0) by (vm_compute; reflexivity).
      rewrite E0 in Ep. apply Fin_inj in Ep. symmetry. exact Ep. }
    subst kp. rewrite fdiv_Fin in Eq' by lia.
    change (0 * one) with (0 * kd) in Eq'.
    rewrite (round_exact 0 kd ltac:(lia) representable_0) in Eq'.
    apply Fin_inj in Eq'; subst q.
    change (0 * (10 * one)) with (0 * one) in Em.
    rewrite (round_exact 0 one H1 representable_0) in Em.
    apply Fin_inj in Em; subst m.
    replace (- 5 * one + 0) with (- 5 * one * 1) in Ek by lia.
    rewrite (round_exact (- 5 * one) 1 ltac:(lia) representable_m5) in Ek.
    apply Fin_inj in Ek; subst k. reflexivity.
  - intros ->. rewrite Ed in Ep. apply Fin_inj in Ep; subst kp.
    rewrite fdiv_self in Eq' by lia. apply Fin_inj in Eq'; subst q.
    replace (one * (10 * one)) with (10 * one * one) in Em by lia.
    rewrite (round_exact (10 * one) one H1 representable_10) in Em.
    apply Fin_inj in Em; subst m.
    replace (- 5 * one + 10 * one) with (5 * one * 1) in Ek by lia.
    rewrite (round_exact (5 * one) 1 ltac:(lia) representable_5) in Ek.
    apply Fin_inj in Ek; subst k. reflexivity.
Qed.

(** C5 (amended): for an image of at least two pixels in each direction,
    the divisors [width - 1] and [height - 1] of the pixel mapping are not
    zero, every pixel is mapped to finite coordinates inside the viewport,
    the edge pixels are mapped exactly onto its bounds, and the Root Solver
    returns a result. *)
Theorem pixel_mapping_defined :
  forall width height n roots max_iterations tolerance_sq deriv_is_zero
         px py,
    2 <= width <= int_max -> 2 <= height <= int_max ->
    0 <= px < width -> 0 <= py < height ->
    pixel_mapping_ok width height n roots max_iterations tolerance_sq
      viewport_min viewport_max viewport_min viewport_max deriv_is_zero
      px py.
Proof.
  intros width height n roots max_iterations tolerance_sq deriv_is_zero
    px py Hw Hh Hx Hy.
  destruct (axis_coordinate width px Hw Hx)
    as (Dx & kr & Er & Br & Lr & Ur).
  destruct (axis_coordinate height py Hh Hy)
    as (Dy & ki & Ei & Bi & Li & Ui).
  unfold pixel_mapping_ok, pixel_to_complex. cbn [re im].
  rewrite Er, Ei.
  split; [exact Dx|]. split; [exact Dy|]. split.
  { exists kr, ki. split; [reflexivity|].
    rewrite viewport_min_eq, viewport_max_eq.
    repeat split; apply fleb_Fin; lia. }
  rewrite viewport_min_eq, viewport_max_eq.
  split; [intros H; rewrite (Lr H); reflexivity|].
  split; [intros H; rewrite (Ur H); reflexivity|].
  split; [intros H; rewrite (Li H); reflexivity|].
  split; [intros H; rewrite (Ui H); reflexivity|].
  eexists. reflexivity.
Qed.

Lemma pixel_mapping_defined_witness :
  pixel_mapping_ok 3 2 1 [mkComplex (literal 1 1) (literal 0 1)] 10
    (literal 1 1000000) viewport_min viewport_max viewport_min viewport_max
    (fun _ => false) 1 1.
Proof.
  apply (pixel_mapping_defined 3 2 1 [mkComplex (literal 1 1) (literal 0 1)]
           10 (literal 1 1000000) (fun _ => false) 1 1);
    unfold int_max; lia.
Defined.

(** C5 as stated, for every [width >= 1] and [height >= 1], fails: in an
    image one pixel wide the divisor [width - 1] is zero and the real part
    of the only column is [0 / 0], not a number. *)
Lemma pixel_mapping_width_1 :
  1 <= 1 /\ 0 <= 0 < 1 /\
  of_int (1 - 1) = Fin 0 /\
  re (pixel_to_complex 1 1 viewport_min viewport_max viewport_min
        viewport_max 0 0) = NaN /\
  ~ pixel_mapping_ok 1 1 1 [mkComplex (literal 1 1) (literal 0 1)] 10
      (literal 1 1000000) viewport_min viewport_max viewport_min
      viewport_max (fun _ => false) 0 0.
Proof.
  split; [lia|]. split; [lia|].
  split; [vm_compute; reflexivity|]. split; [vm_compute; reflexivity|].
  intros ((dx & E & Hd) & _).
  assert (E0 : of_int (1 - 1) = Fin 0) by (vm_compute; reflexivity).
  rewrite E0 in E. injection E as <-. lia.
Qed.

(** ** The roots of unity *)

(** Rounding to [double] changes a magnitude by a factor of two at most. *)
Lemma F64_ulp_le k : 1 <= k -> 2 ^ F64.ulp_exp k <= k.
Proof.
  intros Hk. unfold F64.ulp_exp, F64.prec.
  pose proof (Z.log2_spec k ltac:(lia)) as [Hlo _].
  pose proof (Z.log2_nonneg k) as Hl.
  destruct (Z.max_spec 0 (Z.log2 k + 1 - 53)) as [[_ ->]|[_ ->]].
  - apply Z.le_trans with (2 ^ Z.log2 k); [|exact Hlo].
    apply Z.pow_le_mono_r; lia.
  - simpl. lia.
Qed.

Lemma F64_ulp_half k : 0 < F64.ulp_exp k -> 2 * 2 ^ F64.ulp_exp k <= k.
Proof.
  unfold F64.ulp_exp, F64.prec. intros Hs.
  assert (Hl : 52 < Z.log2 k) by lia.
  assert (Hk : 0 < k) by (destruct k; simpl in Hl; lia).
  pose proof (Z.log2_spec k Hk) as [Hlo _].
  rewrite Z.max_r by lia.
  apply Z.le_trans with (2 ^ Z.log2 k); [|exact Hlo].
  replace (Z.log2 k) with (1 + (Z.log2 k + 1 - 53) + 51) at 2 by lia.
  rewrite !Z.pow_add_r by lia.
  pose proof (pow2_pos (Z.log2 k + 1 - 53) ltac:(lia)).
  change (2 ^ 1) with 2. assert (1 <= 2 ^ 51) by (vm_compute; discriminate).
  nia.
Qed.

Lemma F64_round_pos_bounds n d :
  0 <= n -> 0 < d ->
  n / d <= 2 * F64.round_pos n d /\ F64.round_pos n d <= 2 * (n / d) + 1.
Proof.
  intros Hn Hd. unfold F64.round_pos.
  assert (Hk : 0 <= n / d) by (apply Z.div_pos; lia).
  set (k := n / d) in *.
  assert (Hs : 0 <= F64.ulp_exp k) by (unfold F64.ulp_exp; lia).
  pose proof (pow2_pos _ Hs) as Hu.
  set (u := 2 ^ F64.ulp_exp k) in *.
  pose proof (rne_bounds n (u * d) ltac:(nia)) as [R1 R2].
  assert (Q : n / (u * d) = k / u).
  { unfold k. rewrite (Z.mul_comm u d). rewrite Z.div_div by lia.
    reflexivity. }
  rewrite Q in R1, R2.
  pose proof (Z.div_mod k u ltac:(lia)) as E.
  pose proof (Z.mod_pos_bound k u Hu) as M.
  destruct (Z.eq_dec k 0) as [K0|K0].
  - assert (U0 : u = 1) by (unfold u; rewrite K0; reflexivity).
    rewrite U0, K0 in *. rewrite Z.div_1_r in *. lia.
  - pose proof (F64_ulp_le k ltac:(lia)) as U1. fold u in U1.
    split; [|nia].
    destruct (Z.eq_dec (F64.ulp_exp k) 0) as [S0|S0].
    + unfold u in *. rewrite S0 in *. change (2 ^ 0) with 1 in *.
      rewrite Z.div_1_r in *. lia.
    + pose proof (F64_ulp_half k ltac:(lia)) as U2. fold u in U2. nia.
Qed.

Lemma F64_round_finite n d B :
  0 < d -> Z.abs n <= B * d -> 2 * B + 1 < F64.huge ->
  exists m, F64.round n d = F64.Fin m /\ Z.abs m <= 2 * B + 1 /\
            (0 <= n -> Z.abs n / d <= 2 * m).
Proof.
  intros Hd Hn HB.
  assert (Hq : Z.abs n / d <= B) by (apply Z.div_le_upper_bound; lia).
  unfold F64.round, F64.round_z.
  destruct (Z.ltb_spec n 0) as [N|N].
  - destruct (F64_round_pos_bounds (- n) d ltac:(lia) Hd) as [L U].
    replace (- n) with (Z.abs n) in * by lia.
    assert (0 <= Z.abs n / d) by (apply Z.div_pos; lia).
    destruct (Z.leb_spec F64.huge (Z.abs (- F64.round_pos (Z.abs n) d)));
      [lia|].
    eexists. split; [reflexivity|]. split; lia.
  - destruct (F64_round_pos_bounds n d ltac:(lia) Hd) as [L U].
    replace (Z.abs n) with n in * by lia.
    assert (0 <= n / d) by (apply Z.div_pos; lia).
    destruct (Z.leb_spec F64.huge (Z.abs (F64.round_pos n d))); [lia|].
    eexists. split; [reflexivity|]. split; lia.
Qed.

Lemma two_pi : exists c, F64.fmul (F64.literal 2 1) M_PI = F64.Fin c /\
                         0 <= c <= 7 * F64.one.
Proof. eexists. split; [vm_compute; reflexivity|]. vm_compute. split; discriminate. Qed.

Lemma F64_one_pos : 0 < F64.one.
Proof. reflexivity. Qed.

(** The angles of the loop are finite. *)
Lemma angle_finite k n :
  0 <= k < n -> n <= int_max -> exists a, angle k n = F64.Fin a.
Proof.
  intros Hk Hn. unfold int_max in Hn. unfold angle.
  pose proof F64_one_pos as H1.
  destruct two_pi as (c & -> & Hc).
  destruct (F64_round_finite (k * F64.one) 1 (2 ^ 31 * F64.one) ltac:(lia)
              ltac:(nia) ltac:(vm_compute; reflexivity))
    as (mk & Ek & Bk & _).
  destruct (F64_round_finite (n * F64.one) 1 (2 ^ 31 * F64.one) ltac:(lia)
              ltac:(nia) ltac:(vm_compute; reflexivity))
    as (mn & En & Bn & Ln).
  specialize (Ln ltac:(nia)).
  rewrite Z.div_1_r in Ln.
  unfold F64.of_int. rewrite Ek, En. cbn [F64.fmul].
  destruct (F64_round_finite (c * mk) F64.one (2 ^ 36 * F64.one) H1
              ltac:(nia) ltac:(vm_compute; reflexivity))
    as (x & Ex & Bx & _).
  rewrite Ex. cbn [F64.fdiv].
  assert (Pn : F64.one <= 2 * mn) by nia.
  destruct (Z.eqb_spec mn 0); [lia|].
  rewrite Z.sgn_pos, Z.abs_eq by lia.
  destruct (F64_round_finite (1 * x * F64.one) mn (2 ^ 39 * F64.one)
              ltac:(lia) ltac:(nia) ltac:(vm_compute; reflexivity))
    as (a & Ea & _).
  exists a. exact Ea.
Qed.

(** Rounding to nearest errs by half a unit at most. *)
Lemma rne_error n d : 0 < d -> Z.abs (rne n d * d - n) * 2 <= d.
Proof.
  intros Hd. unfold rne.
  pose proof (Z.div_mod n d ltac:(lia)) as E.
  pose proof (Z.mod_pos_bound n d Hd) as M.
  set (q := n / d) in *. set (r := n mod d) in *.
  destruct (Z.compare_spec (2 * r) d); [destruct (Z.even q)|..]; nia.
Qed.

Lemma round_pos_error n d :
  0 <= n -> 0 < d ->
  Z.abs (round_pos n d * d - n) * 2 <= 2 ^ ulp_exp (n / d) * d.
Proof.
  intros Hn Hd. unfold round_pos.
  pose proof (pow2_pos _ (ulp_exp_nonneg (n / d))) as Hu.
  set (u := 2 ^ ulp_exp (n / d)) in *.
  pose proof (rne_error n (u * d) ltac:(nia)) as R.
  replace (u * rne n (u * d) * d) with (rne n (u * d) * (u * d)) by lia.
  exact R.
Qed.

(** [(float)x] of a double of magnitude at most [1] is within [2^-25] of
    it. *)
Lemma to_float_error c :
  Z.abs c <= F64.one ->
  exists a,
    F64.to_float (F64.Fin c) = Fin a /\
    Z.abs (a * 2 ^ 925 - c) * 2 ^ 25 <= F64.one.
Proof.
  intros Hc. cbn [F64.to_float].
  assert (HD : 0 < 2 ^ 925) by (apply pow2_pos; lia).
  assert (HO : F64.one = one * 2 ^ 925) by reflexivity.
  assert (H125 : 2 ^ 125 * 2 ^ 25 = 2 * one) by reflexivity.
  set (D := 2 ^ 925) in *.
  assert (P : forall x, 0 <= x <= one * D ->
                        Z.abs (round_pos x D * D - x) * 2 ^ 25 <= one * D).
  { intros x Hx.
    destruct (Z.eq_dec x (one * D)) as [->|Nx].
    - rewrite round_pos_exact;
        [lia|pose proof one_pos; lia|lia|vm_compute; reflexivity].
    - pose proof (round_pos_error x D ltac:(lia) HD) as R.
      assert (Hk : 0 <= x / D < one).
      { split; [apply Z.div_pos; lia|apply Z.div_lt_upper_bound; lia]. }
      pose proof (ulp_exp_le_of_lt (x / D) 125 ltac:(lia) Hk) as S.
      pose proof (ulp_exp_nonneg (x / D)) as S0.
      assert (U : 2 ^ ulp_exp (x / D) <= 2 ^ 125)
        by (apply Z.pow_le_mono_r; lia).
      pose proof (pow2_pos _ S0).
      nia. }
  destruct (round_between (- one) one c D HD) as (a & Ea & Ba).
  { vm_compute; reflexivity. }
  { exact representable_one. }
  { lia. }
  exists a. split; [exact Ea|].
  unfold round in Ea.
  destruct (huge <=? Z.abs (round_z c D)); [discriminate|].
  apply Fin_inj in Ea. subst a. unfold round_z. rewrite HO.
  destruct (Z.ltb_spec c 0).
  - specialize (P (- c) ltac:(lia)).
    replace (- round_pos (- c) D * D - c)
      with (- (round_pos (- c) D * D - - c)) by lia.
    rewrite Z.abs_opp. exact P.
  - exact (P c ltac:(lia)).
Qed.

Lemma compute_roots_length cos sin n :
  0 <= n -> Z.of_nat (length (compute_roots cos sin n)) = n.
Proof.
  intros Hn. unfold compute_roots.
  rewrite length_map, length_seq. apply Z2Nat.id, Hn.
Qed.

Lemma compute_roots_nth cos sin n k :
  0 <= k < n ->
  nth_error (compute_roots cos sin n) (Z.to_nat k) = Some (root cos sin k n).
Proof.
  intros Hk. unfold compute_roots.
  rewrite nth_error_map.
  rewrite nth_error_seq.
  destruct (Nat.ltb_spec (Z.to_nat k) (Z.to_nat n)) as [_|B]; [|lia].
  cbn [option_map]. rewrite Nat.add_0_l, Z2Nat.id by lia. reflexivity.
Qed.

(** *** Rounding to [double] *)

Lemma F64_ulp_nonneg k : 0 <= F64.ulp_exp k.
Proof. unfold F64.ulp_exp. lia. Qed.

Lemma F64_round_pos_exact k d :
  0 <= k -> 0 < d -> k mod 2 ^ F64.ulp_exp k = 0 ->
  F64.round_pos (k * d) d = k.
Proof.
  intros Hk Hd Hm. unfold F64.round_pos.
  rewrite Z.div_mul by lia.
  pose proof (pow2_pos _ (F64_ulp_nonneg k)) as Hu.
  set (u := 2 ^ F64.ulp_exp k) in *.
  pose proof (Z.div_mod k u ltac:(lia)) as E. rewrite Hm, Z.add_0_r in E.
  replace (k * d) with (k / u * (u * d)) by nia.
  rewrite rne_exact by nia. lia.
Qed.

(** [(double)z] is exact for the values of an [int]. *)
Lemma F64_of_int_exact z :
  0 <= z < 2 ^ 53 -> F64.of_int z = F64.Fin (z * F64.one).
Proof.
  intros Hz. unfold F64.of_int, F64.round, F64.round_z.
  pose proof F64_one_pos as H1.
  destruct (Z.ltb_spec (z * F64.one) 0) as [N|_]; [nia|].
  replace (F64.round_pos (z * F64.one) 1)
    with (F64.round_pos (z * F64.one * 1) 1) by (f_equal; lia).
  rewrite F64_round_pos_exact; [| nia | lia |].
  - assert (B : 2 ^ 53 * F64.one < F64.huge) by reflexivity.
    destruct (Z.leb_spec F64.huge (Z.abs (z * F64.one))); [nia|reflexivity].
  - destruct (Z.eq_dec z 0) as [->|Z0]; [reflexivity|].
    unfold F64.ulp_exp, F64.prec.
    replace (Z.log2 (z * F64.one)) with (1074 + Z.log2 z)
      by (unfold F64.one; rewrite Z.log2_mul_pow2; lia).
    assert (L : Z.log2 z < 53) by (apply Z.log2_lt_pow2; lia).
    pose proof (Z.log2_nonneg z) as L0.
    rewrite Z.max_r by lia.
    set (e := 1074 + Z.log2 z + 1 - 53).
    unfold F64.one. replace 1074 with (1074 - e + e) by lia.
    rewrite Z.pow_add_r by (unfold e; lia).
    rewrite Z.mul_assoc. apply Z.mod_mul.
    pose proof (pow2_pos e ltac:(unfold e; lia)). lia.
Qed.

Lemma F64_ulp_rel k : 0 <= k -> 2 ^ 52 * 2 ^ F64.ulp_exp k <= k + 2 ^ 52.
Proof.
  intros Hk. unfold F64.ulp_exp, F64.prec.
  destruct (Z.max_spec 0 (Z.log2 k + 1 - 53)) as [[L ->]|[L ->]].
  - assert (Hp : 0 < k) by (destruct k; simpl in L; lia).
    pose proof (Z.log2_spec k Hp) as [Hlo _].
    rewrite <- Z.pow_add_r by lia.
    replace (52 + (Z.log2 k + 1 - 53)) with (Z.log2 k) by lia. lia.
  - change (2 ^ 0) with 1. lia.
Qed.

(** Rounding to [double] errs by [2^-53] of the value, or half the
    smallest double, at most. *)
Lemma F64_round_pos_error n d :
  0 <= n -> 0 < d ->
  Z.abs (F64.round_pos n d * d - n) * 2 ^ 53 <= n + 2 ^ 52 * d.
Proof.
  intros Hn Hd. unfold F64.round_pos.
  assert (Hq : 0 <= n / d) by (apply Z.div_pos; lia).
  pose proof (pow2_pos _ (F64_ulp_nonneg (n / d))) as Hu.
  pose proof (F64_ulp_rel (n / d) Hq) as Hr.
  set (u := 2 ^ F64.ulp_exp (n / d)) in *.
  pose proof (rne_error n (u * d) ltac:(nia)) as R.
  replace (u * rne n (u * d) * d) with (rne n (u * d) * (u * d)) by lia.
  pose proof (Z.mul_div_le n d Hd) as Q.
  change (2 ^ 53) with (2 * 2 ^ 52).
  set (e := Z.abs (rne n (u * d) * (u * d) - n)) in *.
  assert (S1 : e * 2 * 2 ^ 52 <= u * d * 2 ^ 52)
    by (apply Z.mul_le_mono_nonneg_r; [lia|exact R]).
  assert (S2 : 2 ^ 52 * u * d <= (n / d + 2 ^ 52) * d)
    by (apply Z.mul_le_mono_nonneg_r; [lia|exact Hr]).
  lia.
Qed.

Lemma F64_round_Fin n d r :
  0 <= n -> 0 < d -> F64.round n d = F64.Fin r ->
  0 <= r /\ Z.abs (r * d - n) * 2 ^ 53 <= n + 2 ^ 52 * d.
Proof.
  intros Hn Hd. unfold F64.round, F64.round_z.
  destruct (Z.ltb_spec n 0); [lia|].
  destruct (F64.huge <=? Z.abs (F64.round_pos n d)); [discriminate|].
  intros E. injection E as <-.
  split; [|apply F64_round_pos_error; assumption].
  pose proof (F64_round_pos_bounds n d Hn Hd) as [L _].
  assert (0 <= n / d) by (apply Z.div_pos; lia). lia.
Qed.

(** *** Real values *)

Section RealValues.

Local Open Scope R_scope.

(** [pi] to twenty decimals, by Machin's formula
    [pi / 4 = 2 atan (1/3) + atan (1/7)]. *)
Lemma PI_bounds : 3.14159265358979323846 <= PI <= 3.14159265358979323847.
Proof.
  pose proof (PI_2_3_7_ineq 10) as [L U].
  unfold sum_f_R0, tg_alt, PI_2_3_7_tg, Ratan_seq in L, U.
  simpl in L, U.
  split; lra.
Qed.

Lemma IZR_F64_one_pos : 0 < IZR F64.one.
Proof. apply IZR_lt. reflexivity. Qed.

Lemma IZR_one_pos : 0 < IZR one.
Proof. apply IZR_lt. reflexivity. Qed.

Lemma IZR_pow2 (n : nat) : IZR (2 ^ Z.of_nat n) = 2 ^ n.
Proof. rewrite <- pow_IZR. reflexivity. Qed.

Lemma double_unit_small : / IZR F64.one <= / 2 ^ 100.
Proof.
  apply Rinv_le_contravar; [apply pow_lt; lra|].
  rewrite <- IZR_pow2. apply IZR_le. vm_compute. discriminate.
Qed.

Lemma double_value_int z : double_value (z * F64.one) = IZR z.
Proof.
  unfold double_value. rewrite mult_IZR.
  pose proof IZR_F64_one_pos. field. lra.
Qed.

Lemma double_value_0 : double_value 0 = 0.
Proof. unfold double_value. pose proof IZR_F64_one_pos. field. lra. Qed.

(** [M_PI] is [7074237752028440 * 2^-51], less than [1.3e-16] below
    [pi]. *)
Lemma M_PI_value :
  double_value (7074237752028440 * 2 ^ (1074 - 51))
  = 7074237752028440 / 2 ^ 51.
Proof.
  unfold double_value.
  change F64.one with (2 ^ Z.of_nat 51 * 2 ^ (1074 - 51))%Z.
  rewrite !mult_IZR, IZR_pow2.
  assert (P : 0 < IZR (2 ^ (1074 - 51))) by (apply IZR_lt; reflexivity).
  field. lra.
Qed.

Lemma M_PI_error :
  0 <= PI - double_value (7074237752028440 * 2 ^ (1074 - 51))
  <= 13 / 10 ^ 17.
Proof.
  rewrite M_PI_value. pose proof PI_bounds. split; lra.
Qed.

(** The product and the quotient of doubles, as real numbers. *)
Lemma F64_fmul_value a b r :
  (0 <= a)%Z -> (0 <= b)%Z ->
  F64.fmul (F64.Fin a) (F64.Fin b) = F64.Fin r ->
  0 <= double_value r /\
  Rabs (double_value r - double_value a * double_value b) * 2 ^ 53
  <= double_value a * double_value b + 2 ^ 52 * / IZR F64.one.
Proof.
  intros Ha Hb E. cbn [F64.fmul] in E.
  apply F64_round_Fin in E as [Hr E];
    [|apply Z.mul_nonneg_nonneg; assumption|exact F64_one_pos].
  apply IZR_le in E.
  change (2 ^ 53)%Z with (2 ^ Z.of_nat 53)%Z in E.
  change (2 ^ 52)%Z with (2 ^ Z.of_nat 52)%Z in E.
  rewrite plus_IZR, !mult_IZR, abs_IZR, minus_IZR, !mult_IZR, !IZR_pow2 in E.
  apply IZR_le in Hr.
  unfold double_value.
  pose proof IZR_F64_one_pos as HO.
  set (O := IZR F64.one) in *.
  set (A := IZR a) in *. set (B := IZR b) in *. set (X := IZR r) in *.
  assert (HI : 0 < / (O * O))
    by (apply Rinv_0_lt_compat, Rmult_lt_0_compat; assumption).
  split.
  - apply Rmult_le_pos; [exact Hr|]. left. apply Rinv_0_lt_compat, HO.
  - replace (X / O - A / O * (B / O)) with ((X * O - A * B) * / (O * O))
      by (field; lra).
    rewrite Rabs_mult, (Rabs_pos_eq (/ (O * O))) by lra.
    replace (A / O * (B / O) + 2 ^ 52 * / O)
      with ((A * B + 2 ^ 52 * O) * / (O * O)) by (field; lra).
    replace (Rabs (X * O - A * B) * / (O * O) * 2 ^ 53)
      with (Rabs (X * O - A * B) * 2 ^ 53 * / (O * O)) by ring.
    apply Rmult_le_compat_r; [lra|exact E].
Qed.

Lemma F64_fdiv_value a b r :
  (0 <= a)%Z -> (0 < b)%Z ->
  F64.fdiv (F64.Fin a) (F64.Fin b) = F64.Fin r ->
  Rabs (double_value r * double_value b - double_value a) * 2 ^ 53
  <= double_value a + 2 ^ 52 * double_value b * / IZR F64.one.
Proof.
  intros Ha Hb E. cbn [F64.fdiv] in E.
  destruct (Z.eqb_spec b 0); [lia|].
  rewrite Z.sgn_pos, Z.abs_eq in E by lia.
  pose proof F64_one_pos as H1.
  apply F64_round_Fin in E as [Hr E]; [|nia|exact Hb].
  apply IZR_le in E.
  change (2 ^ 53)%Z with (2 ^ Z.of_nat 53)%Z in E.
  change (2 ^ 52)%Z with (2 ^ Z.of_nat 52)%Z in E.
  rewrite plus_IZR, !mult_IZR, abs_IZR, minus_IZR, !mult_IZR, !IZR_pow2 in E.
  unfold double_value.
  pose proof IZR_F64_one_pos as HO.
  set (O := IZR F64.one) in *.
  set (A := IZR a) in *. set (B := IZR b) in *. set (X := IZR r) in *.
  assert (HI : 0 < / (O * O))
    by (apply Rinv_0_lt_compat, Rmult_lt_0_compat; assumption).
  replace (X / O * (B / O) - A / O) with ((X * B - 1 * A * O) * / (O * O))
    by (field; lra).
  rewrite Rabs_mult, (Rabs_pos_eq (/ (O * O))) by lra.
  replace (A / O + 2 ^ 52 * (B / O) * / O)
    with ((1 * A * O + 2 ^ 52 * B) * / (O * O)) by (field; lra).
  replace (Rabs (X * B - 1 * A * O) * / (O * O) * 2 ^ 53)
    with (Rabs (X * B - 1 * A * O) * 2 ^ 53 * / (O * O)) by ring.
  apply Rmult_le_compat_r; [lra|exact E].
Qed.


Lemma Rabs_bounds a b : Rabs a <= b -> - b <= a <= b.
Proof.
  intros H. pose proof (Rle_abs a). pose proof (Rle_abs (- a)) as N.
  rewrite Rabs_Ropp in N. lra.
Qed.

(** [cos] and [sin] change by no more than their argument. *)
Lemma sin_abs_le x : Rabs (sin x) <= Rabs x.
Proof.
  assert (P : forall y, 0 <= y -> Rabs (sin y) <= y).
  { intros y Hy.
    destruct (Rle_lt_dec 1 y) as [B|B].
    - pose proof (SIN_bound y) as [S1 S2].
      apply Rabs_le. lra.
    - destruct Hy as [Hy|<-]; [|rewrite sin_0, Rabs_R0; lra].
      pose proof (sin_lt_x y Hy).
      pose proof PI_bounds.
      pose proof (sin_ge_0 y ltac:(lra) ltac:(lra)).
      apply Rabs_le. lra. }
  destruct (Rle_lt_dec 0 x) as [H|H].
  - rewrite (Rabs_pos_eq x) by exact H. apply P, H.
  - rewrite <- (Rabs_Ropp (sin x)), <- sin_neg, <- (Rabs_Ropp x).
    rewrite (Rabs_pos_eq (- x)) by lra. apply P. lra.
Qed.

Lemma cos_lipschitz p q : Rabs (cos p - cos q) <= Rabs (p - q).
Proof.
  rewrite form2, !Rabs_mult.
  pose proof (sin_abs_le ((p - q) / 2)) as S.
  pose proof (SIN_bound ((p + q) / 2)) as [B1 B2].
  assert (B : Rabs (sin ((p + q) / 2)) <= 1) by (apply Rabs_le; lra).
  replace (Rabs ((p - q) / 2)) with (Rabs (p - q) / 2) in S.
  2:{ unfold Rdiv. rewrite Rabs_mult, (Rabs_pos_eq (/ 2)) by lra.
      reflexivity. }
  replace (Rabs (-2)) with 2 by (rewrite Rabs_left; lra).
  pose proof (Rabs_pos (sin ((p - q) / 2))).
  pose proof (Rabs_pos (sin ((p + q) / 2))).
  pose proof (Rabs_pos (p - q)).
  set (u := Rabs (sin ((p - q) / 2))) in *.
  set (v := Rabs (sin ((p + q) / 2))) in *.
  assert (u * v <= u * 1) by (apply Rmult_le_compat_l; lra).
  lra.
Qed.

Lemma sin_lipschitz p q : Rabs (sin p - sin q) <= Rabs (p - q).
Proof.
  rewrite form4, !Rabs_mult.
  pose proof (sin_abs_le ((p - q) / 2)) as S.
  pose proof (COS_bound ((p + q) / 2)) as [B1 B2].
  assert (B : Rabs (cos ((p + q) / 2)) <= 1) by (apply Rabs_le; lra).
  replace (Rabs ((p - q) / 2)) with (Rabs (p - q) / 2) in S.
  2:{ unfold Rdiv. rewrite Rabs_mult, (Rabs_pos_eq (/ 2)) by lra.
      reflexivity. }
  rewrite (Rabs_pos_eq 2) by lra.
  pose proof (Rabs_pos (sin ((p - q) / 2))).
  pose proof (Rabs_pos (cos ((p + q) / 2))).
  pose proof (Rabs_pos (p - q)).
  set (u := Rabs (sin ((p - q) / 2))) in *.
  set (v := Rabs (cos ((p + q) / 2))) in *.
  assert (v * u <= 1 * u) by (apply Rmult_le_compat_r; lra).
  lra.
Qed.

Lemma two_M_PI :
  F64.fmul (F64.literal 2 1) M_PI
  = F64.Fin (2 * (7074237752028440 * 2 ^ (1074 - 51))).
Proof. vm_compute. reflexivity. Qed.

Lemma angle_eq k n :
  (0 <= k < n)%Z -> (n <= int_max)%Z ->
  angle k n
  = F64.fdiv (F64.fmul (F64.Fin (2 * (7074237752028440 * 2 ^ (1074 - 51))))
                       (F64.Fin (k * F64.one)))
             (F64.Fin (n * F64.one)).
Proof.
  intros Hk Hn. unfold int_max in Hn. unfold angle.
  rewrite two_M_PI.
  rewrite (F64_of_int_exact k), (F64_of_int_exact n) by lia.
  reflexivity.
Qed.

(** The two roundings of the angle: the product [2 pi k] and its
    quotient by [n]. *)
Lemma angle_steps k n a :
  (0 <= k < n)%Z -> (n <= int_max)%Z ->
  angle k n = F64.Fin a ->
  exists y,
    F64.fmul (F64.Fin (2 * (7074237752028440 * 2 ^ (1074 - 51))))
             (F64.Fin (k * F64.one)) = F64.Fin y /\
    F64.fdiv (F64.Fin y) (F64.Fin (n * F64.one)) = F64.Fin a.
Proof.
  intros Hk Hn Ea. rewrite (angle_eq k n Hk Hn) in Ea.
  remember (F64.fmul
              (F64.Fin (2 * (7074237752028440 * 2 ^ (1074 - 51))))
              (F64.Fin (k * F64.one))) as t eqn:Ey.
  destruct t as [y| |].
  - exists y. split; [reflexivity|exact Ea].
  - cbn [F64.fdiv] in Ea. discriminate Ea.
  - cbn [F64.fdiv] in Ea. discriminate Ea.
Qed.

(** The angle of the loop is within [2^-49] of [2 pi k / n]. *)
Lemma angle_value k n :
  (0 <= k < n)%Z -> (n <= int_max)%Z ->
  exists a,
    angle k n = F64.Fin a /\
    Rabs (double_value a - 2 * PI * IZR k / IZR n) <= / 2 ^ 49.
Proof.
  intros Hk Hn.
  destruct (angle_finite k n Hk Hn) as (a & Ea).
  exists a. split; [exact Ea|].
  destruct (angle_steps k n a Hk Hn Ea) as (y & Ey & Ex).
  clear Ea. unfold int_max in Hn.
  pose proof M_PI_error as PE.
  set (m := (7074237752028440 * 2 ^ (1074 - 51))%Z) in *.
  assert (Hm : (0 <= m)%Z) by (vm_compute; discriminate).
  pose proof F64_one_pos as H1.
  apply F64_fmul_value in Ey as [Y0 Ey]; [|lia|nia].
  assert (Hy : (0 <= y)%Z).
  { apply le_IZR. unfold double_value in Y0.
    pose proof IZR_F64_one_pos as HO.
    apply (Rmult_le_compat_r (IZR F64.one)) in Y0; [|lra].
    unfold Rdiv in Y0. rewrite Rmult_assoc, Rinv_l, Rmult_0_l, Rmult_1_r in Y0
      by lra.
    exact Y0. }
  apply F64_fdiv_value in Ex; [|exact Hy|nia].
  rewrite !double_value_int in Ey, Ex.
  replace (double_value (2 * m)) with (2 * double_value m) in Ey.
  2:{ unfold double_value. rewrite mult_IZR.
      pose proof IZR_F64_one_pos. field. lra. }
  pose proof double_unit_small as US.
  pose proof IZR_F64_one_pos as HO.
  apply Rinv_0_lt_compat in HO.
  assert (HK : 0 <= IZR k) by (apply IZR_le; lia).
  assert (HKN : IZR k <= IZR n) by (apply IZR_le; lia).
  assert (HN : 1 <= IZR n) by (apply IZR_le; lia).
  set (u := / IZR F64.one) in *.
  set (Mv := double_value m) in *.
  set (Y := double_value y) in *.
  set (X := double_value a) in *.
  set (K := IZR k) in *. set (N := IZR n) in *.
  assert (HiN : 0 < / N) by (apply Rinv_0_lt_compat; lra).
  assert (HiN1 : / N <= 1).
  { rewrite <- Rinv_1. apply Rinv_le_contravar; lra. }
  set (T := K * / N).
  assert (HT : 0 <= T <= 1).
  { split; [apply Rmult_le_pos; lra|].
    unfold T. replace 1 with (N * / N) by (field; lra).
    apply Rmult_le_compat_r; lra. }
  set (W := Y * / N).
  assert (H1' : Rabs (W - 2 * (Mv * T)) * 2 ^ 53
                <= 2 * (Mv * T) + 2 ^ 52 * (u * / N)).
  { replace (W - 2 * (Mv * T)) with ((Y - 2 * Mv * K) * / N)
      by (unfold W, T; ring).
    rewrite Rabs_mult, (Rabs_pos_eq (/ N)) by lra.
    replace (2 * (Mv * T) + 2 ^ 52 * (u * / N))
      with ((2 * Mv * K + 2 ^ 52 * u) * / N) by (unfold T; ring).
    replace (Rabs (Y - 2 * Mv * K) * / N * 2 ^ 53)
      with (Rabs (Y - 2 * Mv * K) * 2 ^ 53 * / N) by ring.
    apply Rmult_le_compat_r; [lra|exact Ey]. }
  assert (H2' : Rabs (X - W) * 2 ^ 53 <= W + 2 ^ 52 * u).
  { replace (X - W) with ((X * N - Y) * / N)
      by (unfold W; field; lra).
    rewrite Rabs_mult, (Rabs_pos_eq (/ N)) by lra.
    replace (W + 2 ^ 52 * u) with ((Y + 2 ^ 52 * N * u) * / N)
      by (unfold W; field; lra).
    replace (Rabs (X * N - Y) * / N * 2 ^ 53)
      with (Rabs (X * N - Y) * 2 ^ 53 * / N) by ring.
    apply Rmult_le_compat_r; [lra|exact Ex]. }
  replace (2 * PI * K / N) with (2 * (PI * T)) by (unfold T; field; lra).
  assert (HV : 0 <= u * / N <= u).
  { split; [apply Rmult_le_pos; lra|].
    replace u with (u * 1) at 2 by ring.
    apply Rmult_le_compat_l; lra. }
  assert (HP : 0 <= Mv * T <= Mv).
  { assert (0 <= Mv) by (pose proof PI_bounds; lra).
    split; [apply Rmult_le_pos; lra|].
    replace Mv with (Mv * 1) at 2 by ring.
    apply Rmult_le_compat_l; lra. }
  assert (HQ : 0 <= PI * T - Mv * T <= 13 / 10 ^ 17).
  { replace (PI * T - Mv * T) with ((PI - Mv) * T) by ring.
    split; [apply Rmult_le_pos; lra|].
    replace (13 / 10 ^ 17) with (13 / 10 ^ 17 * 1) by ring.
    apply Rmult_le_compat; lra. }
  pose proof PI_bounds as PB.
  set (P := Mv * T) in *. set (Q := PI * T) in *.
  set (V := u * / N) in *.
  assert (U100 : / 2 ^ 100 <= / 2 ^ 60).
  { apply Rinv_le_contravar; [apply pow_lt; lra|].
    apply Rle_pow; [lra|lia]. }
  apply Rabs_le.
  pose proof (Rabs_pos (W - 2 * P)) as A1.
  pose proof (Rabs_pos (X - W)) as A2.
  pose proof (Rle_abs (W - 2 * P)) as B1.
  pose proof (Rle_abs (X - W)) as B2.
  pose proof (Rle_abs (- (W - 2 * P))) as C1.
  pose proof (Rle_abs (- (X - W))) as C2.
  rewrite Rabs_Ropp in C1, C2.
  set (e1 := Rabs (W - 2 * P)) in *. set (e2 := Rabs (X - W)) in *.
  clearbody e1 e2 P Q V W X Y Mv u T K N.
  split; lra.
Qed.

(** [(float)x] of a double of magnitude at most [1] is within [2^-25] of
    it, as real numbers. *)
Lemma to_float_value c :
  (Z.abs c <= F64.one)%Z ->
  exists x,
    F64.to_float (F64.Fin c) = Fin x /\
    Rabs (float_value x - double_value c) <= / 2 ^ 25.
Proof.
  intros Hc. destruct (to_float_error c Hc) as (x & Ex & E).
  exists x. split; [exact Ex|].
  apply IZR_le in E.
  change (2 ^ 25)%Z with (2 ^ Z.of_nat 25)%Z in E.
  change F64.one with (one * 2 ^ 925)%Z in E.
  rewrite !mult_IZR, abs_IZR, minus_IZR, mult_IZR, IZR_pow2 in E.
  unfold float_value, double_value.
  change F64.one with (one * 2 ^ 925)%Z. rewrite mult_IZR.
  pose proof IZR_one_pos as HO.
  assert (HD : 0 < IZR (2 ^ 925)) by (apply IZR_lt; reflexivity).
  set (O := IZR one) in *. set (D := IZR (2 ^ 925)) in *.
  set (X := IZR x) in *. set (C := IZR c) in *.
  assert (HI : 0 < / (O * D))
    by (apply Rinv_0_lt_compat, Rmult_lt_0_compat; assumption).
  replace (X / O - C / (O * D)) with ((X * D - C) * / (O * D))
    by (field; lra).
  rewrite Rabs_mult, (Rabs_pos_eq (/ (O * D))) by lra.
  apply Rmult_le_reg_r with (2 ^ 25 * (O * D)).
  { apply Rmult_lt_0_compat; [apply pow_lt; lra|].
    apply Rmult_lt_0_compat; assumption. }
  replace (Rabs (X * D - C) * / (O * D) * (2 ^ 25 * (O * D)))
    with (Rabs (X * D - C) * 2 ^ 25) by (field; lra).
  replace (/ 2 ^ 25 * (2 ^ 25 * (O * D))) with (O * D) by (field; lra).
  exact E.
Qed.

(** A point within [2^-25 + 2^-48] of a point of the unit circle, in each
    coordinate, has unit magnitude. *)
Lemma unit_magnitude_near x y t :
  Rabs (float_value x - cos t) <= / 2 ^ 25 + / 2 ^ 48 ->
  Rabs (float_value y - sin t) <= / 2 ^ 25 + / 2 ^ 48 ->
  (Z.abs (x * x + y * y - one * one) * 2 ^ 22 <= one * one)%Z.
Proof.
  intros Hx Hy.
  apply le_IZR.
  change (2 ^ 22)%Z with (2 ^ Z.of_nat 22)%Z.
  rewrite mult_IZR, abs_IZR, minus_IZR, plus_IZR, !mult_IZR, IZR_pow2.
  unfold float_value in Hx, Hy.
  pose proof IZR_one_pos as HO.
  set (O := IZR one) in *.
  replace (IZR x) with (IZR x / O * O) by (field; lra).
  replace (IZR y) with (IZR y / O * O) by (field; lra).
  set (A := IZR x / O) in *. set (B := IZR y / O) in *.
  pose proof (sin2_cos2 t) as SC. unfold Rsqr in SC.
  pose proof (COS_bound t) as [C1 C2].
  pose proof (SIN_bound t) as [S1 S2].
  apply Rabs_bounds in Hx, Hy.
  set (c := cos t) in *. set (s := sin t) in *.
  set (e := / 2 ^ 25 + / 2 ^ 48) in *.
  assert (He : 0 <= e <= / 2 ^ 24).
  { unfold e. split; lra. }
  set (d1 := A - c) in *. set (d2 := B - s) in *.
  replace (A * O * (A * O) + B * O * (B * O) - O * O)
    with (O * O * (2 * (c * d1) + d1 * d1 + 2 * (s * d2) + d2 * d2
                   + (s * s + c * c - 1)))
    by (unfold d1, d2; ring).
  rewrite SC. replace (1 - 1) with 0 by ring. rewrite Rplus_0_r.
  assert (P1 : - e <= c * d1 <= e) by nra.
  assert (P2 : - e <= s * d2 <= e) by nra.
  assert (P3 : 0 <= d1 * d1 <= e * e) by nra.
  assert (P4 : 0 <= d2 * d2 <= e * e) by nra.
  assert (P5 : e * e <= / 2 ^ 24 * e).
  { apply Rmult_le_compat_r; lra. }
  rewrite Rabs_mult, (Rabs_pos_eq (O * O)) by nra.
  rewrite Rmult_assoc.
  replace (O * O) with (O * O * 1) at 2 by ring.
  apply Rmult_le_compat_l; [nra|].
  set (q1 := c * d1) in *. set (q2 := s * d2) in *.
  set (q3 := d1 * d1) in *. set (q4 := d2 * d2) in *.
  set (ee := e * e) in *.
  assert (Rabs (2 * q1 + q3 + 2 * q2 + q4) <= 4 * e + 2 * ee)
    by (apply Rabs_le; lra).
  unfold e in *. lra.
Qed.

End RealValues.

(** C7: for every [n >= 1] (an [int]) the vector [roots] has [n] elements,
    and the [k]-th is [(cos (2 pi k / n), sin (2 pi k / n))], with the
    real [pi], cosine and sine, within [2^-24] in each coordinate, and has
    squared magnitude within [2^-22] of [1]; this for a C library whose
    [cos] and [sin] are within [2^-52] of the real functions, and of
    magnitude at most [1], at the angles of the loop. *)
Theorem roots_of_unity :
  forall cos_lib sin_lib n,
    1 <= n <= int_max ->
    (forall k a, 0 <= k < n -> angle k n = F64.Fin a ->
                 libm_accurate cos_lib sin_lib a) ->
    Z.of_nat (length (compute_roots cos_lib sin_lib n)) = n /\
    forall k, 0 <= k < n ->
      exists z,
        nth_error (compute_roots cos_lib sin_lib n) (Z.to_nat k) = Some z /\
        is_root_of_unity k n z /\ unit_magnitude z.
Proof.
  intros cos_lib sin_lib n Hn H.
  split; [apply compute_roots_length; lia|].
  intros k Hk. exists (root cos_lib sin_lib k n).
  split; [apply compute_roots_nth, Hk|].
  destruct (angle_value k n Hk ltac:(lia)) as (a & Ea & Ha).
  destruct (H k a Hk Ea) as (c & s & Ec & Es & Bc & Bs & Hc & Hs).
  destruct (to_float_value c Bc) as (x & Ex & Hx).
  destruct (to_float_value s Bs) as (y & Ey & Hy).
  pose proof (cos_lipschitz (double_value a) (2 * PI * IZR k / IZR n))
    as Lc.
  pose proof (sin_lipschitz (double_value a) (2 * PI * IZR k / IZR n))
    as Ls.
  set (t := (2 * PI * IZR k / IZR n)%R) in *.
  assert (Nx : (Rabs (float_value x - cos t) <= / 2 ^ 25 + / 2 ^ 48)%R).
  { replace (float_value x - cos t)%R
      with ((float_value x - double_value c)
            + (double_value c - cos (double_value a))
            + (cos (double_value a) - cos t))%R by ring.
    eapply Rle_trans; [apply Rabs_triang|].
    eapply Rle_trans;
      [apply Rplus_le_compat_r, Rabs_triang|].
    lra. }
  assert (Ny : (Rabs (float_value y - sin t) <= / 2 ^ 25 + / 2 ^ 48)%R).
  { replace (float_value y - sin t)%R
      with ((float_value y - double_value s)
            + (double_value s - sin (double_value a))
            + (sin (double_value a) - sin t))%R by ring.
    eapply Rle_trans; [apply Rabs_triang|].
    eapply Rle_trans;
      [apply Rplus_le_compat_r, Rabs_triang|].
    lra. }
  unfold root. rewrite Ea, Ec, Es, Ex, Ey.
  split.
  - exists x, y. cbn [re im]. split; [reflexivity|]. split; [reflexivity|].
    fold t. split; lra.
  - exists x, y. cbn [re im]. split; [reflexivity|]. split; [reflexivity|].
    exact (unit_magnitude_near x y t Nx Ny).
Qed.

(** The values of [cos_n2] and [sin_n2] at the two angles of [n = 2]
    are within [2^-52] of the real cosine and sine. *)
Lemma n2_accurate :
  forall k a, 0 <= k < 2 -> angle k 2 = F64.Fin a ->
              libm_accurate cos_n2 sin_n2 a.
Proof.
  intros k a Hk Ea.
  assert (K : k = 0 \/ k = 1) by lia.
  destruct K as [-> | ->].
  - assert (E0 : angle 0 2 = F64.Fin 0) by (vm_compute; reflexivity).
    rewrite E0 in Ea.
    assert (a = 0) by congruence. subst a. clear Ea E0.
    exists F64.one, 0.
    split; [vm_compute; reflexivity|]. split; [vm_compute; reflexivity|].
    split; [vm_compute; discriminate|]. split; [vm_compute; discriminate|].
    rewrite double_value_0, cos_0, sin_0.
    replace (double_value F64.one) with 1%R.
    2:{ rewrite <- (double_value_int 1). reflexivity. }
    replace (1 - 1)%R with 0%R by ring.
    replace (0 - 0)%R with 0%R by ring. rewrite Rabs_R0.
    assert (0 < / 2 ^ 52)%R by (apply Rinv_0_lt_compat, pow_lt; lra).
    split; lra.
  - assert (Em : angle 1 2 = F64.Fin (7074237752028440 * 2 ^ (1074 - 51)))
      by (vm_compute; reflexivity).
    rewrite Em in Ea.
    assert (a = 7074237752028440 * 2 ^ (1074 - 51)) by congruence.
    subst a. clear Ea Em.
    assert (Es : exists s,
               sin_n2 (F64.Fin (7074237752028440 * 2 ^ (1074 - 51)))
               = F64.Fin s /\ 0 <= s /\ s * 2 ^ 52 <= F64.one).
    { eexists. split; [vm_compute; reflexivity|].
      vm_compute. split; discriminate. }
    destruct Es as (s & Es & S0 & S1).
    exists (- 1 * F64.one), s.
    split; [vm_compute; reflexivity|]. split; [exact Es|].
    split; [vm_compute; discriminate|].
    split; [pose proof F64_one_pos; lia|].
    rewrite double_value_int.
    pose proof M_PI_error as PE.
    set (m := double_value (7074237752028440 * 2 ^ (1074 - 51))) in *.
    split.
    + pose proof (cos_lipschitz m PI) as L. rewrite cos_PI in L.
      rewrite <- Rabs_Ropp.
      replace (- (-1 - cos m))%R with (cos m - -1)%R by ring.
      eapply Rle_trans; [exact L|].
      apply Rabs_le. lra.
    + replace m with (PI - (PI - m))%R by ring. rewrite sin_PI_x.
      pose proof (sin_abs_le (PI - m)) as A.
      rewrite (Rabs_pos_eq (PI - m)) in A by lra.
      apply Rabs_bounds in A.
      pose proof PI_bounds as PB.
      pose proof (sin_ge_0 (PI - m) ltac:(lra) ltac:(lra)) as G.
      assert (V : (0 <= double_value s <= / 2 ^ 52)%R).
      { unfold double_value.
        pose proof IZR_F64_one_pos as HO.
        apply IZR_le in S0, S1.
        change (2 ^ 52) with (2 ^ Z.of_nat 52) in S1.
        rewrite mult_IZR, IZR_pow2 in S1.
        split.
        - apply Rmult_le_pos; [exact S0|].
          left. apply Rinv_0_lt_compat, HO.
        - apply Rmult_le_reg_r with (2 ^ 52 * IZR F64.one)%R.
          { apply Rmult_lt_0_compat; [apply pow_lt; lra|exact HO]. }
          replace (IZR s / IZR F64.one * (2 ^ 52 * IZR F64.one))%R
            with (IZR s * 2 ^ 52)%R by (field; lra).
          replace (/ 2 ^ 52 * (2 ^ 52 * IZR F64.one))%R
            with (IZR F64.one) by (field; lra).
          exact S1. }
      apply Rabs_le. lra.
Qed.

Lemma roots_of_unity_witness :
  Z.of_nat (length (compute_roots cos_n2 sin_n2 2)) = 2 /\
  forall k, 0 <= k < 2 ->
    exists z,
      nth_error (compute_roots cos_n2 sin_n2 2) (Z.to_nat k) = Some z /\
      is_root_of_unity k 2 z /\ unit_magnitude z.
Proof.
  apply (roots_of_unity cos_n2 sin_n2 2);
    [unfold int_max; lia|exact n2_accurate].
Defined.

(** * Further properties of [main.cpp] *)

(** ** [hsv_to_rgb]: the roles of the channels *)

Lemma fmul_mono_r kv k1 k2 r1 r2 :
  0 <= kv -> k1 <= k2 ->
  fmul (Fin kv) (Fin k1) = Fin r1 -> fmul (Fin kv) (Fin k2) = Fin r2 ->
  r1 <= r2.
Proof.
  intros Hv Hk. cbn [fmul]. intros E1 E2. pose proof one_pos as H1.
  refine (round_mono _ _ _ _ _ _ H1 H1 _ E1 E2).
  apply Z.mul_le_mono_nonneg_r; [lia|].
  apply Z.mul_le_mono_nonneg_l; lia.
Qed.

Lemma fmul_mono_l k1 k2 kx r1 r2 :
  0 <= kx -> k1 <= k2 ->
  fmul (Fin k1) (Fin kx) = Fin r1 -> fmul (Fin k2) (Fin kx) = Fin r2 ->
  r1 <= r2.
Proof.
  intros Hx Hk. cbn [fmul]. intros E1 E2. pose proof one_pos as H1.
  refine (round_mono _ _ _ _ _ _ H1 H1 _ E1 E2).
  apply Z.mul_le_mono_nonneg_r; [lia|].
  apply Z.mul_le_mono_nonneg_r; lia.
Qed.

(** The channel of [v * x] is monotone in the factor [x] and in [v]. *)
Lemma channel_factor_mono v x1 x2 k1 k2 c1 c2 :
  between 0 one v -> x1 = Fin k1 -> x2 = Fin k2 -> 0 <= k1 <= k2 ->
  k2 <= one ->
  channel (fmul v x1) c1 -> channel (fmul v x2) c2 -> c1 <= c2.
Proof.
  intros Bv -> -> Hk Hk2 C1 C2.
  assert (B1 : between 0 one (Fin k1)) by (exists k1; split; [reflexivity|lia]).
  assert (B2 : between 0 one (Fin k2)) by (exists k2; split; [reflexivity|lia]).
  destruct (fmul_unit _ _ Bv B1) as (r1 & E1 & R1).
  destruct (fmul_unit _ _ Bv B2) as (r2 & E2 & R2).
  destruct Bv as (kv & -> & Hv).
  pose proof (fmul_mono_r kv k1 k2 r1 r2 ltac:(lia) ltac:(lia) E1 E2) as L.
  rewrite E1 in C1. rewrite E2 in C2.
  apply (channel_mono r1 r2); [lia|exact C1|exact C2].
Qed.

Lemma channel_value_mono k1 k2 x c1 c2 :
  0 <= k1 <= k2 -> k2 <= one -> between 0 one x ->
  channel (fmul (Fin k1) x) c1 -> channel (fmul (Fin k2) x) c2 -> c1 <= c2.
Proof.
  intros Hk Hk2 Bx C1 C2.
  assert (B1 : between 0 one (Fin k1)) by (exists k1; split; [reflexivity|lia]).
  assert (B2 : between 0 one (Fin k2)) by (exists k2; split; [reflexivity|lia]).
  destruct (fmul_unit _ _ B1 Bx) as (r1 & E1 & R1).
  destruct (fmul_unit _ _ B2 Bx) as (r2 & E2 & R2).
  destruct Bx as (kx & -> & Hx).
  pose proof (fmul_mono_l k1 k2 kx r1 r2 ltac:(lia) ltac:(lia) E1 E2) as L.
  rewrite E1 in C1. rewrite E2 in C2.
  apply (channel_mono r1 r2); [lia|exact C1|exact C2].
Qed.

(** As [s * y <= s] for [y] in [[0, 1]], [1 - s <= 1 - s * y]: the channel
    of [p = v * (1 - s)] is the lowest. *)
Lemma low_channel v s y cp cy :
  is_float s = true -> between 0 one v -> between 0 one s ->
  between 0 one y ->
  channel (fmul v (fsub (literal 1 1) s)) cp ->
  channel (fmul v (fsub (literal 1 1) (fmul s y))) cy ->
  cp <= cy.
Proof.
  intros Fs Bv Bs By Cp Cy.
  destruct Bs as (ks & -> & Hs). cbn [is_float] in Fs.
  destruct (fmul_unit_le ks y Fs Hs By) as (ky & Ey & Hy).
  rewrite Ey in Cy.
  assert (Bs : between 0 one (Fin ks)) by (exists ks; split; [reflexivity|lia]).
  assert (Bsy : between 0 one (Fin ky)) by (exists ky; split; [reflexivity|lia]).
  destruct (fsub_1 _ Bs) as (a & Ea & Ha).
  destruct (fsub_1 _ Bsy) as (b & Eb & Hb).
  pose proof (fsub_1_anti ky ks b a ltac:(lia) Eb Ea) as L.
  apply (channel_factor_mono v _ _ a b cp cy Bv Ea Eb); [lia|lia|exact Cp|exact Cy].
Qed.

Lemma fsub_1_0 : fsub (literal 1 1) (Fin 0) = Fin one.
Proof. vm_compute. reflexivity. Qed.

Lemma feqb_0_inv s :
  between 0 one s -> feqb s (literal 0 1) = true -> s = Fin 0.
Proof.
  intros (ks & -> & Hs). rewrite literal_0. unfold feqb, fcompare.
  destruct (Z.compare_spec ks 0); try discriminate. intros _. f_equal. lia.
Qed.

(** The colour for arguments in [[0, 1]]: its largest channel is the one
    of [v], its smallest the one of [p = v * (1 - s)]. *)
Lemma hsv_to_rgb_roles h s v :
  is_float s = true -> is_float v = true ->
  between 0 one h -> between 0 one s -> between 0 one v ->
  exists c cv cp,
    hsv_to_rgb h s v = Some c /\
    channel v cv /\ channel (fmul v (fsub (literal 1 1) s)) cp /\
    value_channel c = cv /\ floor_channel c = cp /\ cp <= cv.
Proof.
  intros Fs Fv Bh Bs Bv.
  destruct (feqb s (literal 0 1)) eqn:Ns.
  - (* gray *)
    pose proof (feqb_0_inv s Bs Ns) as ->.
    destruct (channel_defined v Bv) as (k & E & U & R).
    exists (mkRGB (trunc k) (trunc k) (trunc k)), (trunc k), (trunc k).
    split; [unfold hsv_to_rgb, rgb_of; rewrite Ns, U; reflexivity|].
    assert (Cv : channel v (trunc k)) by (exists k; auto).
    split; [exact Cv|]. split.
    + rewrite fsub_1_0. destruct Bv as (kv & -> & Hv). cbn [is_float] in Fv.
      cbn [fmul]. rewrite (round_exact kv one one_pos Fv). exact Cv.
    + unfold value_channel, floor_channel. cbn [red green blue]. lia.
  - destruct (hsv_to_rgb_unit h s v Bh Bs Ns Bv)
      as (m & i & cv & cp & cq & ct & _ & _ & Hi & _ & Bf & _ & Cs).
    cbv zeta in Cs. destruct Cs as (Cv & Cp & Cq & Ct & Le & E).
    destruct (Le Fv) as (Lp & Lq & Lt).
    assert (BF : between 0 one (Fin (m - i * one)))
      by (exists (m - i * one); split; [reflexivity|lia]).
    pose proof (low_channel v s _ cp cq Fs Bv Bs BF Cp Cq) as Lpq.
    pose proof (low_channel v s _ cp ct Fs Bv Bs (fsub_1 _ BF) Cp Ct) as Lpt.
    exists (sector_channels (Z.rem i 6) cv cp cq ct), cv, cp.
    split; [exact E|]. split; [exact Cv|]. split; [exact Cp|].
    assert (C : i = 0 \/ i = 1 \/ i = 2 \/ i = 3 \/ i = 4 \/ i = 5 \/ i = 6)
      by lia.
    unfold value_channel, floor_channel.
    destruct C as [C|[C|[C|[C|[C|[C|C]]]]]]; rewrite C;
      cbn [Z.rem Z.quotrem Z.pos_div_eucl sector_channels red green blue];
      cbn; lia.
Qed.

Lemma unit_of_fleb x :
  fleb (literal 0 1) x = true -> fleb x (literal 1 1) = true ->
  between 0 one x.
Proof.
  rewrite literal_0, literal_1. apply fleb_between.
Qed.

(** X2: in each sector one colour component is at its maximum, [v], and one
    at its minimum, [p]: for floats [h], [s] and [v] in [[0, 1]] the largest
    channel of [hsv_to_rgb (h, s, v)] is [(unsigned char)(v * 255)] and the
    smallest is [(unsigned char)(p * 255)] with [p = v * (1 - s)]. *)
Theorem hsv_to_rgb_max_min :
  forall h s v : float,
    is_float s = true -> is_float v = true ->
    fleb (literal 0 1) h = true -> fleb h (literal 1 1) = true ->
    fleb (literal 0 1) s = true -> fleb s (literal 1 1) = true ->
    fleb (literal 0 1) v = true -> fleb v (literal 1 1) = true ->
    exists c,
      hsv_to_rgb h s v = Some c /\
      to_uchar (fmul v (of_int 255)) = Some (value_channel c) /\
      to_uchar (fmul (fmul v (fsub (literal 1 1) s)) (of_int 255))
      = Some (floor_channel c).
Proof.
  intros h s v Fs Fv Hh0 Hh1 Hs0 Hs1 Hv0 Hv1.
  pose proof (unit_of_fleb h Hh0 Hh1) as Bh.
  pose proof (unit_of_fleb s Hs0 Hs1) as Bs.
  pose proof (unit_of_fleb v Hv0 Hv1) as Bv.
  destruct (hsv_to_rgb_roles h s v Fs Fv Bh Bs Bv)
    as (c & cv & cp & E & Cv & Cp & Xv & Xp & _).
  exists c. split; [exact E|].
  destruct (channel_of_unit v Bv) as (cv' & Cv' & Uv).
  destruct (channel_of_unit _ (fmul_unit _ _ Bv (fsub_1 _ Bs)))
    as (cp' & Cp' & Up).
  rewrite (channel_fun _ _ _ Cv' Cv) in Uv.
  rewrite (channel_fun _ _ _ Cp' Cp) in Up.
  rewrite Xv, Xp. auto.
Qed.

Lemma hsv_to_rgb_max_min_witness :
  exists c,
    hsv_to_rgb (literal 1 3) (literal 9 10) (literal 1 2) = Some c /\
    to_uchar (fmul (literal 1 2) (of_int 255)) = Some (value_channel c) /\
    to_uchar (fmul (fmul (literal 1 2) (fsub (literal 1 1) (literal 9 10)))
                (of_int 255))
    = Some (floor_channel c).
Proof.
  apply (hsv_to_rgb_max_min (literal 1 3) (literal 9 10) (literal 1 2));
    vm_compute; reflexivity.
Defined.

(** X3: the colour is black exactly when [v * 255] is below [1]: a value too
    dim for one step of a channel loses the hue altogether. *)
Theorem hsv_to_rgb_black_iff :
  forall h s v : float,
    is_float s = true -> is_float v = true ->
    fleb (literal 0 1) h = true -> fleb h (literal 1 1) = true ->
    fleb (literal 0 1) s = true -> fleb s (literal 1 1) = true ->
    fleb (literal 0 1) v = true -> fleb v (literal 1 1) = true ->
    (hsv_to_rgb h s v = Some (mkRGB 0 0 0) <->
     fltb (fmul v (of_int 255)) (literal 1 1) = true).
Proof.
  intros h s v Fs Fv Hh0 Hh1 Hs0 Hs1 Hv0 Hv1.
  pose proof (unit_of_fleb h Hh0 Hh1) as Bh.
  pose proof (unit_of_fleb s Hs0 Hs1) as Bs.
  pose proof (unit_of_fleb v Hv0 Hv1) as Bv.
  destruct (hsv_to_rgb_roles h s v Fs Fv Bh Bs Bv)
    as (c & cv & cp & E & Cv & Cp & Xv & Xp & _).
  destruct Cv as (k & Ek & -> & Rk).
  destruct Cp as (k' & _ & -> & Rk').
  destruct (fmul_255 v Bv) as (k0 & Ek0 & Bk0).
  rewrite Ek in Ek0. apply Fin_inj in Ek0. subst k0.
  rewrite Ek, literal_1, fltb_Fin.
  pose proof one_pos as H1.
  rewrite trunc_nonneg in Xv, Rk by lia.
  rewrite E. destruct c as [cr cg cb].
  unfold value_channel, floor_channel in *. cbn [red green blue] in *.
  split.
  - intros [= -> -> ->].
    assert (k / one = 0) by lia.
    apply Z.div_small_iff in H; lia.
  - intros Hk. rewrite (Z.div_small k one) in Xv by lia.
    f_equal. f_equal; lia.
Qed.

Lemma hsv_to_rgb_black_iff_witness :
  hsv_to_rgb (literal 1 3) (literal 9 10) (literal 1 1000)
  = Some (mkRGB 0 0 0) <->
  fltb (fmul (literal 1 1000) (of_int 255)) (literal 1 1) = true.
Proof.
  apply (hsv_to_rgb_black_iff (literal 1 3) (literal 9 10) (literal 1 1000));
    vm_compute; reflexivity.
Defined.

(** ** [hsv_to_rgb]: a brighter value brightens no channel less *)

Lemma hsv_to_rgb_value_mono h s k1 k2 :
  between 0 one h -> between 0 one s -> 0 <= k1 <= k2 -> k2 <= one ->
  exists c1 c2,
    hsv_to_rgb h s (Fin k1) = Some c1 /\ hsv_to_rgb h s (Fin k2) = Some c2 /\
    channels_le c1 c2.
Proof.
  intros Bh Bs Hk Hk2.
  assert (B1 : between 0 one (Fin k1)) by (exists k1; split; [reflexivity|lia]).
  assert (B2 : between 0 one (Fin k2)) by (exists k2; split; [reflexivity|lia]).
  destruct (feqb s (literal 0 1)) eqn:Ns.
  - (* gray *)
    destruct (channel_of_unit _ B1) as (c1 & C1 & U1).
    destruct (channel_of_unit _ B2) as (c2 & C2 & U2).
    exists (mkRGB c1 c1 c1), (mkRGB c2 c2 c2).
    unfold hsv_to_rgb, rgb_of. rewrite Ns, U1, U2.
    split; [reflexivity|]. split; [reflexivity|].
    pose proof (channel_mono k1 k2 c1 c2 Hk C1 C2).
    unfold channels_le. cbn [red green blue]. lia.
  - destruct (hsv_to_rgb_unit h s _ Bh Bs Ns B1)
      as (m & i & cv & cp & cq & ct & Em & Ei & Hi & _ & Bf & _ & Cs).
    cbv zeta in Cs. destruct Cs as (Cv & Cp & Cq & Ct & _ & E).
    destruct (hsv_to_rgb_unit h s _ Bh Bs Ns B2)
      as (m' & i' & cv' & cp' & cq' & ct' & Em' & Ei' & _ & _ & _ & _ & Cs').
    cbv zeta in Cs'. destruct Cs' as (Cv' & Cp' & Cq' & Ct' & _ & E').
    rewrite Em in Em'. apply Fin_inj in Em'. subst m'. subst i'.
    rewrite <- Ei in *.
    assert (BF : between 0 one (Fin (m - i * one)))
      by (exists (m - i * one); split; [reflexivity|lia]).
    pose proof (channel_mono k1 k2 cv cv' Hk Cv Cv') as Lv.
    pose proof (channel_value_mono k1 k2 _ cp cp' Hk Hk2
                  (fsub_1 _ Bs) Cp Cp') as Lp.
    pose proof (channel_value_mono k1 k2 _ cq cq' Hk Hk2
                  (fsub_1 _ (fmul_unit _ _ Bs BF)) Cq Cq') as Lq.
    pose proof (channel_value_mono k1 k2 _ ct ct' Hk Hk2
                  (fsub_1 _ (fmul_unit _ _ Bs (fsub_1 _ BF))) Ct Ct') as Lt.
    eexists. eexists. split; [exact E|]. split; [exact E'|].
    assert (C : i = 0 \/ i = 1 \/ i = 2 \/ i = 3 \/ i = 4 \/ i = 5 \/ i = 6)
      by lia.
    unfold channels_le.
    destruct C as [C|[C|[C|[C|[C|[C|C]]]]]]; rewrite C;
      cbn [Z.rem Z.quotrem Z.pos_div_eucl sector_channels red green blue];
      cbn; lia.
Qed.

Lemma unit_pair_of_fleb v1 v2 :
  fleb (literal 0 1) v1 = true -> fleb v1 v2 = true ->
  fleb v2 (literal 1 1) = true ->
  exists k1 k2, v1 = Fin k1 /\ v2 = Fin k2 /\ 0 <= k1 <= k2 /\ k2 <= one.
Proof.
  rewrite literal_0, literal_1. intros Hv0 Hv12 Hv1.
  destruct v1 as [k1|[|]|], v2 as [k2|[|]|];
    try (unfold fleb, fcompare in Hv0, Hv12, Hv1; simpl in Hv12;
         discriminate).
  apply fleb_Fin in Hv0, Hv12, Hv1. exists k1, k2.
  repeat split; try reflexivity; lia.
Qed.

(** X4: for a hue and a saturation in [[0, 1]], [hsv_to_rgb] is monotone in
    the value, channel by channel. *)
Theorem hsv_to_rgb_value_monotone :
  forall h s v1 v2 : float,
    fleb (literal 0 1) h = true -> fleb h (literal 1 1) = true ->
    fleb (literal 0 1) s = true -> fleb s (literal 1 1) = true ->
    fleb (literal 0 1) v1 = true -> fleb v1 v2 = true ->
    fleb v2 (literal 1 1) = true ->
    exists c1 c2,
      hsv_to_rgb h s v1 = Some c1 /\ hsv_to_rgb h s v2 = Some c2 /\
      channels_le c1 c2.
Proof.
  intros h s v1 v2 Hh0 Hh1 Hs0 Hs1 Hv0 Hv12 Hv1.
  destruct (unit_pair_of_fleb v1 v2 Hv0 Hv12 Hv1)
    as (k1 & k2 & -> & -> & Hk & Hk2).
  apply hsv_to_rgb_value_mono; try assumption; apply unit_of_fleb; assumption.
Qed.

Lemma hsv_to_rgb_value_monotone_witness :
  exists c1 c2,
    hsv_to_rgb (literal 1 3) (literal 9 10) (literal 1 4) = Some c1 /\
    hsv_to_rgb (literal 1 3) (literal 9 10) (literal 1 2) = Some c2 /\
    channels_le c1 c2.
Proof.
  apply (hsv_to_rgb_value_monotone (literal 1 3) (literal 9 10)
           (literal 1 4) (literal 1 2)); vm_compute; reflexivity.
Defined.

(** ** [hsv_to_rgb]: the hue [1.0f] *)

(** X5: the comment of [hsv_to_rgb] admits the hue [1]: there [h * 6] is [6],
    [i %= 6] sends the seventh sector back to the first, and the colour is
    the one of the hue [0], for every saturation and value. *)
Theorem hsv_to_rgb_hue_wraps :
  forall s v : float,
    hsv_to_rgb (literal 1 1) s v = hsv_to_rgb (literal 0 1) s v.
Proof.
  intros s v. unfold hsv_to_rgb.
  destruct (feqb s (literal 0 1)); [reflexivity|].
  assert (E1 : fmul (literal 1 1) (literal 6 1) = Fin (6 * one))
    by (vm_compute; reflexivity).
  assert (E0 : fmul (literal 0 1) (literal 6 1) = Fin 0)
    by (vm_compute; reflexivity).
  assert (I1 : to_int (Fin (6 * one)) = Some 6) by (vm_compute; reflexivity).
  assert (I0 : to_int (Fin 0) = Some 0) by (vm_compute; reflexivity).
  assert (F1 : fsub (Fin (6 * one)) (of_int 6) = Fin 0)
    by (vm_compute; reflexivity).
  assert (F0 : fsub (Fin 0) (of_int 0) = Fin 0) by (vm_compute; reflexivity).
  rewrite E1, E0, I1, I0. cbv zeta. rewrite F1, F0.
  reflexivity.
Qed.

(** ** No clamping is needed *)

Lemma hsv_to_rgb_some h s v :
  between 0 one h -> between 0 one s -> between 0 one v ->
  is_colour (hsv_to_rgb h s v).
Proof.
  intros Bh Bs Bv. unfold is_colour.
  destruct (feqb s (literal 0 1)) eqn:Ns.
  - destruct (channel_defined v Bv) as (k & E & U & R).
    exists (mkRGB (trunc k) (trunc k) (trunc k)).
    split; [|cbn [red green blue]; lia].
    unfold hsv_to_rgb, rgb_of. rewrite Ns, U. reflexivity.
  - destruct (hsv_to_rgb_unit h s v Bh Bs Ns Bv)
      as (m & i & cv & cp & cq & ct & _ & _ & Hi & _ & _ & _ & Cs).
    cbv zeta in Cs. destruct Cs as (Cv & Cp & Cq & Ct & _ & E).
    destruct Cv as (k1 & _ & _ & R1). destruct Cp as (k2 & _ & _ & R2).
    destruct Cq as (k3 & _ & _ & R3). destruct Ct as (k4 & _ & _ & R4).
    eexists. split; [exact E|].
    assert (C : i = 0 \/ i = 1 \/ i = 2 \/ i = 3 \/ i = 4 \/ i = 5 \/ i = 6)
      by lia.
    destruct C as [C|[C|[C|[C|[C|[C|C]]]]]]; rewrite C;
      cbn [Z.rem Z.quotrem Z.pos_div_eucl sector_channels red green blue];
      cbn; lia.
Qed.

(** X1: for a hue, a saturation and a value in [[0, 1]], every conversion of
    [hsv_to_rgb] to [int] and to [unsigned char] is defined: the function
    returns a colour, with channels in [[0, 255]], without clamping. *)
Theorem hsv_to_rgb_defined :
  forall h s v : float,
    fleb (literal 0 1) h = true -> fleb h (literal 1 1) = true ->
    fleb (literal 0 1) s = true -> fleb s (literal 1 1) = true ->
    fleb (literal 0 1) v = true -> fleb v (literal 1 1) = true ->
    is_colour (hsv_to_rgb h s v).
Proof.
  intros h s v Hh0 Hh1 Hs0 Hs1 Hv0 Hv1.
  apply hsv_to_rgb_some; apply unit_of_fleb; assumption.
Qed.

Lemma hsv_to_rgb_defined_witness :
  is_colour (hsv_to_rgb (literal 1 1) (literal 1 1) (literal 1 2)).
Proof.
  apply (hsv_to_rgb_defined (literal 1 1) (literal 1 1) (literal 1 2));
    vm_compute; reflexivity.
Defined.

(** ** The loop: every pixel gets a colour *)

Lemma colorize_some pow n max_iterations gamma root_index iters :
  (forall x, between 0 one x -> between 0 one (pow x gamma)) ->
  1 <= max_iterations <= int_max -> n <= int_max ->
  -1 <= root_index < n -> 0 <= iters <= max_iterations ->
  is_colour (colorize pow n max_iterations gamma root_index iters).
Proof.
  intros Hpow Hm Hn Hr Hi. unfold colorize.
  destruct (Z.eqb_spec root_index (-1)) as [_|Nr].
  - exists (mkRGB 0 0 0). cbn [red green blue]. split; [reflexivity|lia].
  - cbv zeta. apply hsv_to_rgb_some.
    + apply hue_unit; lia.
    + exact saturation_unit.
    + unfold pixel_value.
      destruct (unit_value iters max_iterations Hi Hm) as (k & -> & Bk & _).
      apply Hpow. exists k. split; [reflexivity|exact Bk].
Qed.

(** X7: the post-processing loop turns arrays of [root_index] in
    [{-1, ..., n-1}] and [iters] in [[0, max_iterations]] into an image of
    as many pixels, each a colour whose conversions were all defined;
    [pow (x, gamma)] stays in [[0, 1]] for [x] in [[0, 1]]. *)
Theorem post_process_defined :
  forall pow n max_iterations gamma output_root output_iters,
    (forall x, fleb (literal 0 1) x = true -> fleb x (literal 1 1) = true ->
               fleb (literal 0 1) (pow x gamma) = true /\
               fleb (pow x gamma) (literal 1 1) = true) ->
    1 <= max_iterations <= int_max -> n <= int_max ->
    length output_root = length output_iters ->
    Forall (fun r => -1 <= r < n) output_root ->
    Forall (fun it => 0 <= it <= max_iterations) output_iters ->
    length (post_process pow n max_iterations gamma output_root output_iters)
    = length output_root /\
    Forall is_colour
      (post_process pow n max_iterations gamma output_root output_iters).
Proof.
  intros pow n max_iterations gamma output_root output_iters Hpow Hm Hn Hl
    Hr Hi.
  assert (Hpow' : forall x, between 0 one x -> between 0 one (pow x gamma)).
  { intros x (k & -> & Hk).
    destruct (Hpow (Fin k)) as [P0 P1].
    - rewrite literal_0. apply fleb_Fin. lia.
    - rewrite literal_1. apply fleb_Fin. lia.
    - apply unit_of_fleb; assumption. }
  unfold post_process. split.
  - rewrite length_map, length_combine. lia.
  - apply Forall_forall. intros c Hc.
    apply in_map_iff in Hc as ([r it] & <- & Hin).
    pose proof (in_combine_l _ _ _ _ Hin) as Ir.
    pose proof (in_combine_r _ _ _ _ Hin) as Ii.
    rewrite Forall_forall in Hr, Hi.
    cbn [fst snd]. apply colorize_some; auto.
Qed.

Lemma pow_integral_unit x :
  between 0 one x -> between 0 one (pow_integral x (literal 4 1)).
Proof.
  intros (a & -> & Ha).
  assert (E4 : literal 4 1 = Fin (4 * one)) by (vm_compute; reflexivity).
  rewrite E4. unfold pow_integral.
  change (0 <? 4 * one) with true. change (0 <=? 4 * one) with true.
  change (4 * one mod one =? 0) with true. change (4 * one / one) with 4.
  change (4 =? 0) with false. change (4 - 1) with 3.
  destruct (Z.eqb_spec a 0) as [->|Na]; cbv beta iota zeta delta [andb].
  - exists 0. split; [reflexivity|pose proof one_pos; lia].
  - pose proof one_pos as H1.
    apply round_between;
      [apply Z.pow_pos_nonneg; lia|exact representable_0
      |exact representable_one|].
    split; [rewrite Z.mul_0_l; apply Z.pow_nonneg; lia|].
    replace (one * one ^ 3) with (one ^ 4) by ring.
    apply Z.pow_le_mono_l. lia.
Qed.

Lemma post_process_defined_witness :
  length (post_process pow_integral 5 100 (literal 4 1) [-1; 3; 0; 4]
            [100; 20; 0; 100]) = length [-1; 3; 0; 4] /\
  Forall is_colour
    (post_process pow_integral 5 100 (literal 4 1) [-1; 3; 0; 4]
       [100; 20; 0; 100]).
Proof.
  apply (post_process_defined pow_integral 5 100 (literal 4 1)).
  - intros x H0 H1.
    pose proof (pow_integral_unit x (unit_of_fleb x H0 H1)) as (k & -> & Hk).
    rewrite literal_0, literal_1, !fleb_Fin. exact Hk.
  - unfold int_max. lia.
  - unfold int_max. lia.
  - reflexivity.
  - repeat constructor; lia.
  - repeat constructor; lia.
Defined.

(** ** The loop: brightness and hues *)

Lemma fmul_1_255 : fmul (Fin one) (of_int 255) = Fin (255 * one).
Proof. vm_compute. reflexivity. Qed.

Lemma trunc_255 : trunc (255 * one) = 255.
Proof. vm_compute. reflexivity. Qed.

(** X8: a pixel that converged with [iters = 0] has full brightness: its value
    is [pow (1, gamma) = 1] and the largest channel of its colour is
    [255], for every root index below [n]. *)
Theorem colorize_first_iteration :
  forall pow n max_iterations gamma root_index,
    pow (literal 1 1) gamma = literal 1 1 ->
    1 <= max_iterations <= int_max ->
    0 <= root_index < n -> n <= int_max ->
    pixel_value pow max_iterations gamma 0 = literal 1 1 /\
    exists c,
      colorize pow n max_iterations gamma root_index 0 = Some c /\
      value_channel c = 255.
Proof.
  intros pow n max_iterations gamma root_index Hpow Hm Hr Hn.
  assert (V : pixel_value pow max_iterations gamma 0 = literal 1 1).
  { unfold pixel_value.
    destruct (of_int_nonneg max_iterations ltac:(lia)) as (km & Em & _ & Pm).
    pose proof one_pos as H1. specialize (Pm ltac:(lia)).
    assert (E0 : of_int 0 = Fin 0) by (vm_compute; reflexivity).
    rewrite Em, E0, fdiv_Fin by lia.
    change (0 * one) with (0 * km).
    rewrite (round_exact 0 km ltac:(lia) representable_0).
    rewrite fsub_1_0, <- literal_1. exact Hpow. }
  split; [exact V|].
  unfold colorize. destruct (Z.eqb_spec root_index (-1)); [lia|].
  cbv zeta. rewrite V, literal_1.
  pose proof (hue_unit root_index n Hr Hn) as Bh. pose proof one_pos as H1.
  destruct (colour_of_unit _ one Bh representable_one ltac:(lia))
    as (c & cv & Ec & Cv & Xv & _).
  exists c. split; [exact Ec|]. rewrite Xv.
  destruct Cv as (k & Ek & -> & _).
  rewrite fmul_1_255 in Ek. apply Fin_inj in Ek. subst k. exact trunc_255.
Qed.

Lemma pow_integral_1_l : pow_integral (literal 1 1) (literal 4 1) = literal 1 1.
Proof. vm_compute. reflexivity. Qed.

Lemma colorize_first_iteration_witness :
  pixel_value pow_integral 100 (literal 4 1) 0 = literal 1 1 /\
  exists c,
    colorize pow_integral 5 100 (literal 4 1) 3 0 = Some c /\
    value_channel c = 255.
Proof.
  apply (colorize_first_iteration pow_integral 5 100 (literal 4 1) 3
           pow_integral_1_l); unfold int_max; lia.
Defined.

(** The error of rounding a rational in [[0, 1)]: half a unit in the last
    place of the binade below [1], [2^-25], at most. *)
Lemma round_error_unit N d x :
  0 < d -> 0 <= N < one * d -> round N d = Fin x ->
  Z.abs (x * d - N) * 2 <= 2 ^ 125 * d.
Proof.
  intros Hd HN E. unfold round in E.
  destruct (huge <=? Z.abs (round_z N d)); [discriminate|].
  apply Fin_inj in E. subst x. unfold round_z.
  destruct (Z.ltb_spec N 0); [lia|].
  pose proof (round_pos_error N d ltac:(lia) Hd) as R.
  assert (Hk : 0 <= N / d < one).
  { split; [apply Z.div_pos; lia|apply Z.div_lt_upper_bound; lia]. }
  pose proof (ulp_exp_le_of_lt (N / d) 125 ltac:(lia) Hk) as S.
  pose proof (ulp_exp_nonneg (N / d)) as S0.
  assert (U : 2 ^ ulp_exp (N / d) <= 2 ^ 125) by (apply Z.pow_le_mono_r; lia).
  eapply Z.le_trans; [exact R|].
  apply Z.mul_le_mono_nonneg_r; lia.
Qed.

(** The hue [root_index / n] as the loop computes it. *)
Lemma hue_round r n :
  0 <= r < n -> n <= 2 ^ 23 ->
  fdiv (of_int r) (of_int n) = round (r * one * one) (n * one) /\
  exists x, round (r * one * one) (n * one) = Fin x /\ 0 <= x <= one.
Proof.
  intros Hr Hn. pose proof one_pos as H1.
  assert (P24 : 2 ^ 23 <= 2 ^ prec) by (vm_compute; discriminate).
  rewrite !of_int_exact by lia.
  rewrite fdiv_Fin by nia. split; [reflexivity|].
  apply round_between;
    [nia|exact representable_0|exact representable_one|].
  split; [nia|].
  replace (r * one * one) with (one * (r * one)) by ring.
  apply Z.mul_le_mono_nonneg_l; [lia|]. nia.
Qed.

(** X10: up to [2^23] roots, distinct roots get distinct hues: the hue is a
    float in [[0, 1)] and grows strictly with the root index. *)
Theorem hue_strictly_increasing :
  forall n r1 r2,
    0 <= r1 < r2 -> r2 < n -> n <= 2 ^ 23 ->
    let hue r := fdiv (of_int r) (of_int n) in
    is_float (hue r2) = true /\
    fleb (literal 0 1) (hue r1) = true /\
    fltb (hue r1) (hue r2) = true /\
    fltb (hue r2) (literal 1 1) = true.
Proof.
  intros n r1 r2 H12 H2n Hn hue. unfold hue.
  pose proof one_pos as H1.
  destruct (hue_round r1 n ltac:(lia) Hn) as (E1 & x1 & X1 & B1).
  destruct (hue_round r2 n ltac:(lia) Hn) as (E2 & x2 & X2 & B2).
  assert (Hd : 0 < n * one) by nia.
  assert (F2 : is_float (fdiv (of_int r2) (of_int n)) = true).
  { rewrite E2. apply round_is_float. exact Hd. }
  rewrite E1, E2 in *. rewrite X1, X2 in *.
  assert (N1 : 0 <= r1 * one * one < one * (n * one)).
  { split; [nia|].
    replace (r1 * one * one) with (one * (r1 * one)) by ring.
    apply Z.mul_lt_mono_pos_l; [lia|]. nia. }
  assert (N2 : 0 <= r2 * one * one < one * (n * one)).
  { split; [nia|].
    replace (r2 * one * one) with (one * (r2 * one)) by ring.
    apply Z.mul_lt_mono_pos_l; [lia|]. nia. }
  pose proof (round_error_unit _ _ _ Hd N1 X1) as R1.
  pose proof (round_error_unit _ _ _ Hd N2 X2) as R2.
  (* one step of the root index is [one / n >= 2^126], four times the
     rounding error *)
  assert (G : 2 ^ 125 * (n * one) * 2 <= one * one).
  { assert (O : 2 ^ 125 * 2 * 2 ^ 23 = one) by reflexivity.
    assert (Q : 2 ^ 125 * 2 * n <= one).
    { rewrite <- O. apply Z.mul_le_mono_nonneg_l; [|exact Hn].
      vm_compute; discriminate. }
    replace (2 ^ 125 * (n * one) * 2) with (2 ^ 125 * 2 * n * one) by ring.
    apply Z.mul_le_mono_nonneg_r; lia. }
  assert (S : r1 * one * one + one * one <= r2 * one * one).
  { replace (r1 * one * one + one * one) with ((r1 + 1) * (one * one)) by ring.
    replace (r2 * one * one) with (r2 * (one * one)) by ring.
    apply Z.mul_le_mono_nonneg_r; [nia|lia]. }
  assert (T : r2 * one * one + one * one <= n * one * one).
  { replace (r2 * one * one + one * one) with ((r2 + 1) * (one * one)) by ring.
    replace (n * one * one) with (n * (one * one)) by ring.
    apply Z.mul_le_mono_nonneg_r; [nia|lia]. }
  set (A1 := r1 * one * one) in *. set (A2 := r2 * one * one) in *.
  set (OO := one * one) in *.
  set (D := n * one) in *.
  assert (PO : 0 < OO) by (unfold OO; nia).
  assert (L12 : x1 * D < x2 * D) by lia.
  assert (L21 : x2 * D < one * D).
  { replace (one * D) with (n * one * one) by (unfold D; ring). lia. }
  split; [exact F2|].
  split; [rewrite literal_0; apply fleb_Fin; lia|].
  split.
  - apply fltb_Fin. apply (Z.mul_lt_mono_pos_r D); assumption.
  - rewrite literal_1. apply fltb_Fin.
    apply (Z.mul_lt_mono_pos_r D); assumption.
Qed.

Lemma hue_strictly_increasing_witness :
  let hue r := fdiv (of_int r) (of_int 5) in
  is_float (hue 4) = true /\
  fleb (literal 0 1) (hue 3) = true /\
  fltb (hue 3) (hue 4) = true /\
  fltb (hue 4) (literal 1 1) = true.
Proof.
  apply (hue_strictly_increasing 5 3 4); lia.
Defined.

(** ** The first root *)

Lemma F64_round_0 d : 0 < d -> F64.round 0 d = F64.Fin 0.
Proof.
  intros Hd. unfold F64.round, F64.round_z, F64.round_pos.
  change (0 <? 0) with false. cbv iota.
  rewrite Z.div_0_l by lia.
  change (F64.ulp_exp 0) with 0. change (2 ^ 0) with 1.
  rewrite !Z.mul_1_l.
  replace (rne 0 d) with 0.
  - reflexivity.
  - symmetry. apply (rne_exact 0 d Hd).
Qed.

Lemma angle_0 n : 1 <= n <= int_max -> angle 0 n = F64.Fin 0.
Proof.
  intros Hn. unfold int_max in Hn. unfold angle.
  pose proof F64_one_pos as H1.
  assert (E0 : F64.fmul (F64.fmul (F64.literal 2 1) M_PI) (F64.of_int 0)
               = F64.Fin 0) by (vm_compute; reflexivity).
  rewrite E0.
  destruct (F64_round_finite (n * F64.one) 1 (2 ^ 31 * F64.one) ltac:(lia)
              ltac:(nia) ltac:(vm_compute; reflexivity))
    as (mn & En & _ & Ln).
  specialize (Ln ltac:(nia)). rewrite Z.div_1_r in Ln.
  unfold F64.of_int. rewrite En. cbn [F64.fdiv].
  assert (Pn : 0 < mn) by nia.
  destruct (Z.eqb_spec mn 0); [lia|].
  rewrite Z.mul_0_r, Z.mul_0_l, Z.abs_eq by lia.
  apply F64_round_0, Pn.
Qed.

(** X11: with [cos 0 = 1] and [sin 0 = 0], the first root is exactly [1 + 0i]
    for every [n >= 1]. *)
Theorem first_root_is_one :
  forall cos sin n,
    cos (F64.Fin 0) = F64.literal 1 1 -> sin (F64.Fin 0) = F64.Fin 0 ->
    1 <= n <= int_max ->
    nth_error (compute_roots cos sin n) 0%nat
    = Some (mkComplex (literal 1 1) (literal 0 1)).
Proof.
  intros cos sin n Hc Hs Hn.
  change 0%nat with (Z.to_nat 0).
  rewrite (compute_roots_nth cos sin n 0 ltac:(lia)).
  unfold root. rewrite (angle_0 n Hn), Hc, Hs.
  assert (T1 : F64.to_float (F64.literal 1 1) = literal 1 1)
    by (vm_compute; reflexivity).
  assert (T0 : F64.to_float (F64.Fin 0) = literal 0 1)
    by (vm_compute; reflexivity).
  rewrite T1, T0. reflexivity.
Qed.

Lemma first_root_is_one_witness :
  nth_error (compute_roots cos_n2 sin_n2 2) 0%nat
  = Some (mkComplex (literal 1 1) (literal 0 1)).
Proof.
  apply (first_root_is_one cos_n2 sin_n2 2);
    [reflexivity|vm_compute; reflexivity|unfold int_max; lia].
Defined.

(** ** The squared tolerance *)

Lemma F64_round_nonneg n d :
  0 <= n -> 0 < d ->
  F64.round n d = F64.Inf false \/ exists m, F64.round n d = F64.Fin m /\ 0 <= m.
Proof.
  intros Hn Hd. unfold F64.round, F64.round_z.
  destruct (Z.ltb_spec n 0); [lia|].
  destruct (F64_round_pos_bounds n d Hn Hd) as [L _].
  assert (0 <= n / d) by (apply Z.div_pos; lia).
  destruct (F64.huge <=? Z.abs (F64.round_pos n d)).
  - left. destruct (Z.ltb_spec (F64.round_pos n d) 0); [lia|reflexivity].
  - right. eexists. split; [reflexivity|lia].
Qed.

Lemma round_nonneg n d :
  0 <= n -> 0 < d -> fleb (Fin 0) (round n d) = true.
Proof.
  intros Hn Hd. unfold round, round_z.
  destruct (Z.ltb_spec n 0); [lia|].
  pose proof (round_pos_nonneg n d Hn Hd) as P.
  destruct (huge <=? Z.abs (round_pos n d)).
  - destruct (Z.ltb_spec (round_pos n d) 0); [lia|reflexivity].
  - apply fleb_Fin. exact P.
Qed.

(** X12: [tolerance_sq] does not see the sign of the tolerance and is never
    negative: a negative tolerance acts as its absolute value. *)
Theorem tolerance_sq_sign :
  forall k : Z,
    tolerance_sq_of (F64.Fin (- k)) = tolerance_sq_of (F64.Fin k) /\
    fleb (literal 0 1) (tolerance_sq_of (F64.Fin k)) = true.
Proof.
  intros k. unfold tolerance_sq_of. cbn [F64.fmul]. split.
  - replace (- k * - k) with (k * k) by ring. reflexivity.
  - rewrite literal_0.
    destruct (F64_round_nonneg (k * k) F64.one (Z.square_nonneg k)
                F64_one_pos) as [E|(m & E & Hm)]; rewrite E.
    + reflexivity.
    + cbn [F64.to_float]. apply round_nonneg; [exact Hm|].
      apply pow2_pos. lia.
Qed.

(** X13: a tolerance of magnitude [2^-76] or less, about [1.3e-23], squares to
    less than half the smallest positive [float]: [tolerance_sq] is
    [0], although the tolerance may be positive. *)
Theorem tolerance_sq_underflow :
  forall k : Z,
    Z.abs k <= 2 ^ 998 -> tolerance_sq_of (F64.Fin k) = Fin 0.
Proof.
  intros k Hk. unfold tolerance_sq_of. cbn [F64.fmul].
  pose proof F64_one_pos as H1.
  assert (Hkk : Z.abs (k * k) <= 2 ^ 922 * F64.one).
  { rewrite Z.abs_mul.
    replace (2 ^ 922 * F64.one) with (2 ^ 998 * 2 ^ 998) by reflexivity.
    apply Z.mul_le_mono_nonneg; lia. }
  destruct (F64_round_finite (k * k) F64.one (2 ^ 922) H1 Hkk
              ltac:(vm_compute; reflexivity)) as (m & E & Bm & _).
  destruct (F64_round_nonneg (k * k) F64.one (Z.square_nonneg k) H1)
    as [E'|(m' & E' & Hm)]; rewrite E in E'; [discriminate|].
  injection E' as <-. rewrite E. cbn [F64.to_float].
  assert (Hm2 : 0 <= 2 * m < 2 ^ 925).
  { change (2 ^ 925) with (2 ^ 922 * 8).
    assert (1 <= 2 ^ 922) by (vm_compute; discriminate). lia. }
  unfold round, round_z. destruct (Z.ltb_spec m 0); [lia|].
  assert (R : round_pos m (2 ^ 925) = 0).
  { unfold round_pos. rewrite (Z.div_small m (2 ^ 925)) by lia.
    change (ulp_exp 0) with 0. change (2 ^ 0) with 1. rewrite !Z.mul_1_l.
    unfold rne. rewrite Z.mod_small, Z.div_small by lia.
    destruct (Z.compare_spec (2 * m) (2 ^ 925)); lia. }
  rewrite R. reflexivity.
Qed.

Lemma tolerance_sq_underflow_witness :
  tolerance_sq_of (F64.Fin (2 ^ 998)) = Fin 0.
Proof.
  apply (tolerance_sq_underflow (2 ^ 998)). vm_compute. discriminate.
Defined.

(** ** The loop: fewer iterations, brighter *)

(** X9: "Fewer iterations = brighter", for every [gamma]: when [pow (x, gamma)]
    is monotone in [x] on [[0, 1]] and stays there, the colour of a
    converged pixel loses no brightness in any channel when its iteration
    count goes down. *)
Theorem colorize_fewer_iterations_brighter :
  forall pow n max_iterations gamma root_index a b,
    (forall x y,
        fleb (literal 0 1) x = true -> fleb x y = true ->
        fleb y (literal 1 1) = true ->
        fleb (literal 0 1) (pow x gamma) = true /\
        fleb (pow x gamma) (pow y gamma) = true /\
        fleb (pow y gamma) (literal 1 1) = true) ->
    1 <= max_iterations <= int_max ->
    0 <= root_index < n -> n <= int_max ->
    0 <= a <= b -> b <= max_iterations ->
    exists ca cb,
      colorize pow n max_iterations gamma root_index a = Some ca /\
      colorize pow n max_iterations gamma root_index b = Some cb /\
      channels_le cb ca.
Proof.
  intros pow n max_iterations gamma root_index a b Hpow Hm Hr Hn Hab Hb.
  destruct (unit_value a max_iterations ltac:(lia) Hm) as (ka & Ea & Ba & _).
  destruct (unit_value b max_iterations ltac:(lia) Hm) as (kb & Eb & Bb & _).
  pose proof (unit_value_anti a b max_iterations ka kb Hab Hb Hm Ea Eb) as L.
  destruct (Hpow (Fin kb) (Fin ka)) as (P0 & P1 & P2).
  { rewrite literal_0. apply fleb_Fin. lia. }
  { apply fleb_Fin. exact L. }
  { rewrite literal_1. apply fleb_Fin. lia. }
  destruct (unit_pair_of_fleb _ _ P0 P1 P2) as (vb & va & Vb & Va & Hv & Hv1).
  pose proof (hue_unit root_index n Hr Hn) as Bh.
  destruct (hsv_to_rgb_value_mono _ _ vb va Bh saturation_unit Hv Hv1)
    as (cb & ca & Cb & Ca & Le).
  exists ca, cb.
  unfold colorize, pixel_value.
  destruct (Z.eqb_spec root_index (-1)); [lia|].
  cbv zeta. rewrite Ea, Eb, Va, Vb. auto.
Qed.

Lemma pow_integral_4_monotone x y :
  fleb (literal 0 1) x = true -> fleb x y = true ->
  fleb y (literal 1 1) = true ->
  fleb (literal 0 1) (pow_integral x (literal 4 1)) = true /\
  fleb (pow_integral x (literal 4 1)) (pow_integral y (literal 4 1)) = true /\
  fleb (pow_integral y (literal 4 1)) (literal 1 1) = true.
Proof.
  intros H0 H01 H1.
  destruct (unit_pair_of_fleb x y H0 H01 H1) as (a & b & -> & -> & Hab & Hb).
  assert (Bx : between 0 one (Fin a)) by (exists a; split; [reflexivity|lia]).
  assert (By : between 0 one (Fin b)) by (exists b; split; [reflexivity|lia]).
  destruct (pow_integral_unit _ Bx) as (pa & Ea & Ha).
  destruct (pow_integral_unit _ By) as (pb & Eb & Hb').
  rewrite Ea, Eb, literal_0, literal_1, !fleb_Fin.
  split; [lia|]. split; [|lia].
  assert (E4 : literal 4 1 = Fin (4 * one)) by (vm_compute; reflexivity).
  rewrite E4 in Ea, Eb. unfold pow_integral in Ea, Eb.
  change (0 <? 4 * one) with true in Ea, Eb.
  change (0 <=? 4 * one) with true in Ea, Eb.
  change (4 * one mod one =? 0) with true in Ea, Eb.
  change (4 * one / one) with 4 in Ea, Eb.
  change (4 =? 0) with false in Ea, Eb. change (4 - 1) with 3 in Ea, Eb.
  pose proof one_pos as H1'.
  assert (Pd : 0 < one ^ 3) by (apply Z.pow_pos_nonneg; lia).
  destruct (Z.eqb_spec a 0) as [A0|A0];
    cbv beta iota zeta delta [andb] in Ea.
  - apply Fin_inj in Ea. lia.
  - destruct (Z.eqb_spec b 0) as [B0|B0];
      cbv beta iota zeta delta [andb] in Eb; [lia|].
    refine (round_mono _ _ _ _ _ _ Pd Pd _ Ea Eb).
    apply Z.mul_le_mono_nonneg_r; [lia|].
    apply Z.pow_le_mono_l. lia.
Qed.

Lemma colorize_fewer_iterations_brighter_witness :
  exists ca cb,
    colorize pow_integral 5 100 (literal 4 1) 3 20 = Some ca /\
    colorize pow_integral 5 100 (literal 4 1) 3 60 = Some cb /\
    channels_le cb ca.
Proof.
  apply (colorize_fewer_iterations_brighter pow_integral 5 100 (literal 4 1)
           3 20 60 pow_integral_4_monotone); unfold int_max; lia.
Defined.

(** ** [hsv_to_rgb]: values it has no colour for *)

Lemma rgb_of_none_1 a b c : to_uchar a = None -> rgb_of a b c = None.
Proof. intros H. unfold rgb_of. rewrite H. reflexivity. Qed.

Lemma rgb_of_none_2 a b c : to_uchar b = None -> rgb_of a b c = None.
Proof.
  intros H. unfold rgb_of. rewrite H. destruct (to_uchar a); reflexivity.
Qed.

Lemma rgb_of_none_3 a b c : to_uchar c = None -> rgb_of a b c = None.
Proof.
  intros H. unfold rgb_of. rewrite H.
  destruct (to_uchar a); [destruct (to_uchar b)|]; reflexivity.
Qed.

(** X6: every path of [hsv_to_rgb] converts [v * 255] to [unsigned char] and
    none clamps: when that conversion is undefined (the scaled value is
    [256] or more, [-1] or less, or not a number), the call has no defined
    result, whatever the hue and the saturation. *)
Theorem hsv_to_rgb_value_out_of_range :
  forall h s v : float,
    to_uchar (fmul v (of_int 255)) = None -> hsv_to_rgb h s v = None.
Proof.
  intros h s v H. unfold hsv_to_rgb.
  destruct (feqb s (literal 0 1)); [apply rgb_of_none_1, H|].
  destruct (to_int (fmul h (literal 6 1))) as [i|]; [|reflexivity].
  cbv zeta.
  destruct (Z.rem i 6) as [|p|p];
    [apply rgb_of_none_1, H| |apply rgb_of_none_1, H].
  destruct p as [[p|p|]|[[p|p|]|[p|p|]|]|];
    first [apply rgb_of_none_1, H | apply rgb_of_none_2, H
          | apply rgb_of_none_3, H].
Qed.

Lemma hsv_to_rgb_value_out_of_range_witness :
  hsv_to_rgb (literal 1 3) (literal 9 10) (literal 2 1) = None.
Proof.
  apply (hsv_to_rgb_value_out_of_range (literal 1 3) (literal 9 10)
           (literal 2 1)).
  vm_compute. reflexivity.
Defined.

(** ** The loop: which converged pixels are black *)

Lemma saturation_is_float : is_float (literal 9 10) = true.
Proof. vm_compute. reflexivity. Qed.

(** X14: a converged pixel is drawn black, like an unconverged one,
    exactly when its value times [255] is below [1]; [pow] returns a
    float in [[0, 1]]. *)
Theorem colorize_black_iff :
  forall pow n max_iterations gamma root_index iters,
    (forall x, fleb (literal 0 1) x = true -> fleb x (literal 1 1) = true ->
               is_float (pow x gamma) = true /\
               fleb (literal 0 1) (pow x gamma) = true /\
               fleb (pow x gamma) (literal 1 1) = true) ->
    1 <= max_iterations <= int_max ->
    0 <= root_index < n -> n <= int_max ->
    0 <= iters <= max_iterations ->
    (colorize pow n max_iterations gamma root_index iters
     = Some (mkRGB 0 0 0) <->
     fltb (fmul (pixel_value pow max_iterations gamma iters) (of_int 255))
          (literal 1 1) = true).
Proof.
  intros pow n max_iterations gamma root_index iters Hpow Hm Hr Hn Hi.
  unfold colorize. destruct (Z.eqb_spec root_index (-1)); [lia|].
  cbv zeta. unfold pixel_value.
  destruct (unit_value iters max_iterations Hi Hm) as (k & -> & Bk & _).
  destruct (Hpow (Fin k)) as (Fv & V0 & V1).
  { rewrite literal_0. apply fleb_Fin. lia. }
  { rewrite literal_1. apply fleb_Fin. lia. }
  set (v := pow (Fin k) gamma) in *.
  pose proof (unit_of_fleb v V0 V1) as Bv.
  pose proof (hue_unit root_index n Hr Hn) as Bh.
  destruct (hsv_to_rgb_roles _ _ v saturation_is_float Fv Bh saturation_unit
              Bv) as (c & cv & cp & E & Cv & Cp & Xv & Xp & _).
  destruct Cv as (kv & Ekv & -> & Rk).
  destruct Cp as (k' & _ & -> & Rk').
  destruct (fmul_255 v Bv) as (k0 & Ek0 & Bk0).
  rewrite Ekv in Ek0. apply Fin_inj in Ek0. subst k0.
  rewrite Ekv, literal_1, fltb_Fin.
  pose proof one_pos as H1.
  rewrite trunc_nonneg in Xv, Rk by lia.
  rewrite E. destruct c as [cr cg cb].
  unfold value_channel, floor_channel in *. cbn [red green blue] in *.
  split.
  - intros [= -> -> ->].
    assert (Q : kv / one = 0) by lia.
    apply Z.div_small_iff in Q; lia.
  - intros Hk. rewrite (Z.div_small kv one) in Xv by lia.
    f_equal. f_equal; lia.
Qed.

Lemma pow_integral_4_float x :
  fleb (literal 0 1) x = true -> fleb x (literal 1 1) = true ->
  is_float (pow_integral x (literal 4 1)) = true /\
  fleb (literal 0 1) (pow_integral x (literal 4 1)) = true /\
  fleb (pow_integral x (literal 4 1)) (literal 1 1) = true.
Proof.
  intros H0 H1.
  pose proof (unit_of_fleb x H0 H1) as Bx.
  destruct (pow_integral_unit x Bx) as (p & Ep & Hp).
  split.
  - destruct Bx as (a & -> & Ha).
    assert (E4 : literal 4 1 = Fin (4 * one)) by (vm_compute; reflexivity).
    rewrite E4. unfold pow_integral.
    change (0 <? 4 * one) with true. change (0 <=? 4 * one) with true.
    change (4 * one mod one =? 0) with true. change (4 * one / one) with 4.
    change (4 =? 0) with false. change (4 - 1) with 3.
    destruct (Z.eqb_spec a 0); cbv beta iota zeta delta [andb].
    + reflexivity.
    + apply round_is_float. apply Z.pow_pos_nonneg; [exact one_pos|lia].
  - rewrite Ep, literal_0, literal_1, !fleb_Fin. lia.
Qed.

Lemma colorize_black_iff_witness :
  colorize pow_integral 5 100 (literal 4 1) 3 80 = Some (mkRGB 0 0 0) <->
  fltb (fmul (pixel_value pow_integral 100 (literal 4 1) 80) (of_int 255))
       (literal 1 1) = true.
Proof.
  apply (colorize_black_iff pow_integral 5 100 (literal 4 1) 3 80
           pow_integral_4_float); unfold int_max; lia.
Defined.
